(** * Traffic flow simulator (Nagel-Schreckenberg cellular automaton)

    A shallow embedding of the simulation engine of [traffic_simulator.py]:
    the class [TrafficSimulator] with its constructor, [get_road_state],
    [_calculate_gap], [step], [_collect_data] and [run_simulation].

    Modelling conventions.
    - [positions] and [speeds] are numpy [int64] arrays: their elements are
      integers of [Z], and every arithmetic operation on them is followed by
      the two's-complement wrap-around [wrap64].  [road_length] and
      [max_speed] are Python integers; the model covers the runs in which
      they fit in 64 bits (numpy refuses or promotes larger ones).
    - [brake_prob], [density], the uniform draws and the recorded flow are
      binary64 floats: the kernel's primitive floats.
    - [numpy.random] is the process-wide generator.  It is not part of the
      source, so it is an interface ([Generator]); its state is threaded
      through every function that draws from it, next to a counter of the
      calls of [np.random.random].  [np.mean], whose summation order is
      numpy's own, is a function of the same interface.
    - A Python exception ([IndexError], [ValueError]) is the result [None].
    - [run_simulation] is the state transition; the lines it prints are
      added by [run_simulation_printing].  Of the plotting code, which calls
      matplotlib, only the data it prepares is modelled: the colour list of
      [_create_colormap] and the matrix, ticks and tick labels of
      [_plot_space_time_diagram]. *)

From Stdlib Require Import ZArith Floats Lia.
From stdpp Require Import base option list sorting strings pretty.

Open Scope Z_scope.

(** ** Machine integers and floats *)

(** Two's-complement reduction of an integer to the range of [int64]. *)
Definition wrap64 (z : Z) : Z := (z + 2 ^ 63) `mod` 2 ^ 64 - 2 ^ 63.

(** [a % b] on [int64] with a Python integer divisor: the remainder has the
    sign of the divisor, and numpy answers [0] for a zero divisor. *)
Definition np_mod (a b : Z) : Z := if decide (b = 0) then 0 else a `mod` b.

(** Conversion of an integer to binary64, rounding to nearest even. *)
Definition float_of_Z (z : Z) : float :=
  SF2Prim (binary_normalize prec emax z 0 false).

(** [int(x)] of a Python float: truncation toward zero; [nan] and the
    infinities raise. *)
Definition py_int (x : float) : option Z :=
  match Prim2SF x with
  | S754_zero _ => Some 0
  | S754_finite sg m e =>
      let a := if decide (0 <= e) then Z.pos m * 2 ^ e else Z.pos m `div` 2 ^ (- e) in
      Some (if sg then - a else a)
  | S754_infinity _ => None
  | S754_nan => None
  end.

(** [np.sum] of an [int64] array. *)
Definition np_sum (l : list Z) : Z := wrap64 (foldr Z.add 0 l).

(** [np.min] of a nonempty [int64] array, given as head and tail. *)
Definition np_min (x : Z) (l : list Z) : Z := foldr Z.min x l.

(** [np.argsort]: the indices of [l] ordered by increasing element.  numpy
    leaves the order of the indices of equal elements open; here they come in
    increasing order. *)
Fixpoint insert_by_key (l : list Z) (i : nat) (js : list nat) : list nat :=
  match js with
  | [] => [i]
  | j :: js' =>
      if decide (l !!! i <= l !!! j) then i :: js else j :: insert_by_key l i js'
  end.

Definition np_argsort (l : list Z) : list nat :=
  foldr (insert_by_key l) [] (seq 0 (length l)).

(** [np.sort]. *)
Definition np_sort (l : list Z) : list Z := merge_sort Z.le l.

(** A value stored in [avg_speed_data]: a float, or the Python integer [0]
    of the empty road. *)
Inductive pyval :=
  | PyFloat (x : float)
  | PyInt (z : Z).

(** ** The random generator *)

(** The numpy operations the simulator calls whose code is not part of the
    source.  Those of [numpy.random] are functions of the generator's state:
    [np_choice a n] is [choice(a, n, replace=False)] and [np_randint lo hi n]
    is [randint(lo, hi, n)].  [np_mean] is [np.mean] on an [int64] array: the
    order in which numpy adds the elements as floats, and so the rounding of
    the result, is the library's. *)
Class Generator (G : Type) := {
  np_seed : Z → option G;
  np_choice : Z → Z → G → option (list Z * G);
  np_randint : Z → Z → Z → G → option (list Z * G);
  np_random : G → float * G;
  np_mean : list Z → float
}.

(** What numpy documents about the arrays these calls return. *)
Class GeneratorLaws (G : Type) `{Generator G} : Prop := {
  np_choice_length a n g l g' :
    np_choice a n g = Some (l, g') → Z.of_nat (length l) = n;
  np_choice_range a n g l g' :
    np_choice a n g = Some (l, g') → Forall (λ x, 0 <= x < a) l;
  np_choice_NoDup a n g l g' :
    np_choice a n g = Some (l, g') → NoDup l;
  np_randint_length lo hi n g l g' :
    np_randint lo hi n g = Some (l, g') → Z.of_nat (length l) = n;
  np_randint_range lo hi n g l g' :
    np_randint lo hi n g = Some (l, g') → Forall (λ x, lo <= x < hi) l
}.

(** The process-wide generator and the number of uniform draws made so far. *)
Record rng (G : Type) := Rng { gen : G; draws : nat }.
Arguments Rng {G} _ _.
Arguments gen {G} _.
Arguments draws {G} _.

(** ** The simulator *)

Record TrafficSimulator := Sim {
  road_length : Z;
  max_speed : Z;
  brake_prob : float;
  density : float;
  num_vehicles : Z;
  positions : list Z;
  speeds : list Z;
  space_time_data : list (list float);
  flow_data : list float;
  avg_speed_data : list pyval
}.

Section Simulator.
Context {G : Type} `{Generator G}.

(** [np.random.random()] on the process-wide generator. *)
Definition random (w : rng G) : float * rng G :=
  let '(x, g) := np_random (gen w) in (x, Rng g (S (draws w))).

(** [TrafficSimulator.__init__].  The seed is [None] or an integer; the
    test [if random_seed:] is Python's truth test. *)
Definition __init__ (road_length : Z) (density : float) (max_speed : Z)
    (brake_prob : float) (random_seed : option Z) (w : rng G)
    : option (TrafficSimulator * rng G) :=
  w ← match random_seed with
      | Some sd =>
          if decide (sd = 0) then Some w
          else g ← np_seed sd; Some (Rng g (draws w))
      | None => Some w
      end;
  num_vehicles ← py_int (density * float_of_Z road_length)%float;
  '(chosen, g) ← np_choice road_length num_vehicles (gen w);
  '(speeds, g) ← np_randint 0 (max_speed + 1) num_vehicles g;
  Some (Sim road_length max_speed brake_prob density num_vehicles
            (np_sort chosen) speeds [] [] [],
        Rng g (draws w)).

(** [road[int(pos)] = v] on an array of [n] cells: a negative index counts
    from the end, an index outside [-n, n) raises [IndexError]. *)
Definition set_cell (road : list float) (pos : Z) (v : float) : option (list float) :=
  let n := Z.of_nat (length road) in
  if decide (0 <= pos < n) then Some (<[Z.to_nat pos := v]> road)
  else if decide (- n <= pos < 0) then Some (<[Z.to_nat (pos + n) := v]> road)
  else None.

(** The loop of [get_road_state], from vehicle [i] on. *)
Fixpoint fill_road (ps : list Z) (sp : list Z) (i : nat) (road : list float)
    : option (list float) :=
  match ps with
  | [] => Some road
  | pos :: ps' =>
      v ← sp !! i;
      road ← set_cell road pos (float_of_Z v);
      fill_road ps' sp (S i) road
  end.

(** [TrafficSimulator.get_road_state]. *)
Definition get_road_state (s : TrafficSimulator) : option (list float) :=
  if decide (road_length s < 0) then None
  else fill_road (positions s) (speeds s) 0
         (replicate (Z.to_nat (road_length s)) 0%float).

(** [TrafficSimulator._calculate_gap]. *)
Definition _calculate_gap (s : TrafficSimulator) (vehicle_pos : Z) : Z :=
  match filter (λ x, vehicle_pos < x) (positions s) with
  | next :: _ => wrap64 (wrap64 (next - vehicle_pos) - 1)
  | [] =>
      match filter (λ x, x < vehicle_pos) (positions s) with
      | b :: bs =>
          wrap64 (wrap64 (wrap64 (road_length s - vehicle_pos) - 1) + np_min b bs)
      | [] => road_length s - 1
      end
  end.

(** One iteration of the loop of [step], for the vehicle of index [idx]:
    the output arrays and the generator before, and after. *)
Definition update_vehicle (s : TrafficSimulator) (idx : nat)
    (st : list Z * list Z * rng G) : option (list Z * list Z * rng G) :=
  let '(new_speeds, new_positions, w) := st in
  pos ← positions s !! idx;
  speed ← speeds s !! idx;
  (* 1. Acceleration *)
  let new_speeds :=
    if decide (speed < max_speed s) then <[idx := wrap64 (speed + 1)]> new_speeds
    else new_speeds in
  (* 2. Deceleration *)
  let gap := _calculate_gap s pos in
  v ← new_speeds !! idx;
  let new_speeds :=
    if decide (gap < v) then <[idx := Z.max 0 gap]> new_speeds else new_speeds in
  (* 3. Random braking: the draw is made only when the speed is positive *)
  v ← new_speeds !! idx;
  let '(brakes, w) :=
    if decide (0 < v) then
      let '(r, w') := random w in (r <? brake_prob s, w')%float
    else (false, w) in
  let new_speeds :=
    if brakes then <[idx := Z.max 0 (wrap64 (v - 1))]> new_speeds else new_speeds in
  (* 4. Movement *)
  v ← new_speeds !! idx;
  _ ← new_positions !! idx;
  let new_positions :=
    <[idx := np_mod (wrap64 (pos + v)) (road_length s)]> new_positions in
  Some (new_speeds, new_positions, w).

(** The loop of [step] over the indices [idxs]. *)
Fixpoint update_vehicles (s : TrafficSimulator) (idxs : list nat)
    (st : list Z * list Z * rng G) : option (list Z * list Z * rng G) :=
  match idxs with
  | [] => Some st
  | idx :: idxs' => st ← update_vehicle s idx st; update_vehicles s idxs' st
  end.

(** [TrafficSimulator._collect_data]. *)
Definition _collect_data (s : TrafficSimulator) : option TrafficSimulator :=
  road_state ← get_road_state s;
  let flow := (float_of_Z (np_sum (speeds s)) / float_of_Z (road_length s))%float in
  let avg_speed :=
    if decide (0 < length (speeds s))%nat then PyFloat (np_mean (speeds s))
    else PyInt 0 in
  Some (Sim (road_length s) (max_speed s) (brake_prob s) (density s)
            (num_vehicles s) (positions s) (speeds s)
            (space_time_data s ++ [road_state])
            (flow_data s ++ [flow])
            (avg_speed_data s ++ [avg_speed])).

(** [TrafficSimulator.step]. *)
Definition step (s : TrafficSimulator) (w : rng G)
    : option (TrafficSimulator * rng G) :=
  '(new_speeds, new_positions, w) ←
    update_vehicles s (np_argsort (positions s)) (speeds s, positions s, w);
  s ← _collect_data
        (Sim (road_length s) (max_speed s) (brake_prob s) (density s)
             (num_vehicles s) new_positions new_speeds
             (space_time_data s) (flow_data s) (avg_speed_data s));
  Some (s, w).

(** [range(n)]. *)
Definition py_range (n : Z) : list Z := Z.of_nat <$> seq 0 (Z.to_nat n).

(** The loop [for step in range(steps): self.step()]. *)
Fixpoint run_steps (rg : list Z) (s : TrafficSimulator) (w : rng G)
    : option (TrafficSimulator * rng G) :=
  match rg with
  | [] => Some (s, w)
  | _ :: rg' => '(s, w) ← step s w; run_steps rg' s w
  end.

(** [TrafficSimulator.run_simulation]. *)
Definition run_simulation (steps : Z) (s : TrafficSimulator) (w : rng G)
    : option (TrafficSimulator * rng G) :=
  run_steps (py_range steps) s w.

End Simulator.

(** ** The stages of the update rule, as functions of one vehicle

    The value [update_vehicle] writes for one vehicle, stage by stage; the
    lemma [update_vehicle_spec] below relates them to the loop body. *)

(** Stage 1: the speed after acceleration. *)
Definition accelerate (s : TrafficSimulator) (v : Z) : Z :=
  if decide (v < max_speed s) then wrap64 (v + 1) else v.

(** Stage 2: the speed after the gap-limited deceleration. *)
Definition decelerate (gap v : Z) : Z :=
  if decide (gap < v) then Z.max 0 gap else v.

(** The speed of the vehicle at [p] with speed [v] after stages 1 and 2. *)
Definition target_speed (s : TrafficSimulator) (p v : Z) : Z :=
  decelerate (_calculate_gap s p) (accelerate s v).

(** Stage 3: the speed after braking, [b] telling whether the vehicle brakes. *)
Definition brake (b : bool) (v : Z) : Z :=
  if b then Z.max 0 (wrap64 (v - 1)) else v.

(** Stage 4: the cell reached from [p] at speed [v]. *)
Definition move (s : TrafficSimulator) (p v : Z) : Z :=
  np_mod (wrap64 (p + v)) (road_length s).

(** The braking decision of stage 3 and the generator after it. *)
Definition brake_draw {G} `{Generator G} (s : TrafficSimulator) (v : Z) (w : rng G)
    : bool * rng G :=
  if decide (0 < v) then
    let '(r, w') := random w in ((r <? brake_prob s)%float, w')
  else (false, w).

(** Whether the vehicle of index [i] makes a braking draw in the next step. *)
Definition draws_at (s : TrafficSimulator) (i : nat) : bool :=
  bool_decide (0 < target_speed s (positions s !!! i) (speeds s !!! i)).

(** The number of vehicles that make a braking draw in the next step. *)
Definition braking_draws (s : TrafficSimulator) : nat :=
  length (filter (λ i, draws_at s i = true) (seq 0 (length (positions s)))).

(** ** Well-formed states *)

(** Well-formed states: the parameters are in range and fit in 64 bits, both
    arrays have [num_vehicles] elements, every position is a cell of the road
    and every speed is in [0, max_speed].  Order and distinctness of the
    positions are stated apart. *)
Record valid (s : TrafficSimulator) : Prop := Valid {
  valid_road : 0 < road_length s;
  valid_max_speed : 0 <= max_speed s;
  valid_int64 : road_length s + max_speed s < 2 ^ 63;
  valid_count : num_vehicles s = Z.of_nat (length (positions s));
  valid_length : length (speeds s) = length (positions s);
  valid_positions : Forall (λ p, 0 <= p < road_length s) (positions s);
  valid_speeds : Forall (λ v, 0 <= v <= max_speed s) (speeds s)
}.

(** Strictly increasing positions. *)
Definition ascending (l : list Z) : Prop := StronglySorted Z.lt l.

(** [n] calls of [step] in sequence lead from one state to another. *)
Inductive steps_to {G} `{Generator G}
    : nat → TrafficSimulator * rng G → TrafficSimulator * rng G → Prop :=
  | steps_to_O sw : steps_to 0 sw sw
  | steps_to_S n s w sw' sw'' :
      step s w = Some sw' → steps_to n sw' sw'' → steps_to (S n) (s, w) sw''.

(** The output arrays of [step] once the vehicles of the indices [seen] have
    been processed: their cells hold the result of the four stages for some
    braking decision, the other cells still hold the copied values. *)
Definition processed (s : TrafficSimulator) (seen : list nat)
    (new_speeds new_positions : list Z) : Prop :=
  length new_speeds = length (speeds s) ∧
  length new_positions = length (positions s) ∧
  ∀ i p v, positions s !! i = Some p → speeds s !! i = Some v →
    (i ∈ seen →
       ∃ b : bool,
         new_speeds !! i = Some (brake b (target_speed s p v)) ∧
         new_positions !! i = Some (move s p (brake b (target_speed s p v)))) ∧
    (i ∉ seen → new_speeds !! i = Some v ∧ new_positions !! i = Some p).

(** The state [step] builds from the output arrays, before the metrics are
    recorded. *)
Definition with_arrays (s : TrafficSimulator) (new_positions new_speeds : list Z)
    : TrafficSimulator :=
  Sim (road_length s) (max_speed s) (brake_prob s) (density s) (num_vehicles s)
      new_positions new_speeds
      (space_time_data s) (flow_data s) (avg_speed_data s).

(** The flow [_collect_data] records for the state [s]. *)
Definition flow_of (s : TrafficSimulator) : float :=
  (float_of_Z (np_sum (speeds s)) / float_of_Z (road_length s))%float.

(** The average speed [_collect_data] records for the state [s]. *)
Definition avg_speed_of {G} `{Generator G} (s : TrafficSimulator) : pyval :=
  if decide (0 < length (speeds s))%nat then PyFloat (np_mean (speeds s))
  else PyInt 0.

(** The state [_collect_data] leaves when the road view is [road_state]. *)
Definition with_record {G} `{Generator G} (s : TrafficSimulator)
    (road_state : list float) : TrafficSimulator :=
  Sim (road_length s) (max_speed s) (brake_prob s) (density s) (num_vehicles s)
      (positions s) (speeds s)
      (space_time_data s ++ [road_state])
      (flow_data s ++ [flow_of s])
      (avg_speed_data s ++ [avg_speed_of s]).

(** The gap as the specification words it: the smallest position ahead of
    [p] minus [p] minus one; when no vehicle is ahead, the distance to the end
    of the road plus the smallest position behind [p]; [road_length - 1] for
    a vehicle alone on the road. *)
Definition spec_gap (s : TrafficSimulator) (p : Z) : Z :=
  match filter (λ x, p < x) (positions s) with
  | a :: ahead => np_min a ahead - p - 1
  | [] =>
      match filter (λ x, x < p) (positions s) with
      | b :: behind => (road_length s - p - 1) + np_min b behind
      | [] => road_length s - 1
      end
  end.

(** The output arrays of [step] once the vehicles of the indices [seen] have
    been processed and none of them has braked. *)
Definition settled (s : TrafficSimulator) (seen : list nat)
    (new_speeds new_positions : list Z) : Prop :=
  length new_speeds = length (speeds s) ∧
  length new_positions = length (positions s) ∧
  ∀ i p v, positions s !! i = Some p → speeds s !! i = Some v →
    (i ∈ seen →
       new_speeds !! i = Some (target_speed s p v) ∧
       new_positions !! i = Some (move s p (target_speed s p v))) ∧
    (i ∉ seen → new_speeds !! i = Some v ∧ new_positions !! i = Some p).

(** The gaps along a circular road, position by position: from each
    position to the next one of the list, and from the last one to [T], the
    first position seen one lap further. *)
Fixpoint ring_gaps (T : Z) (l : list Z) : list Z :=
  match l with
  | [] => []
  | x :: l' => (default T (head l') - x - 1) :: ring_gaps T l'
  end.

(** ** Printing and plotting data *)

(** The line printed after step [k] of [steps]. *)
Definition progress_line (k steps : Z) : string :=
  "   Step " +:+ pretty k +:+ "/" +:+ pretty steps +:+ " completed".

(** The loop of [run_simulation] with the lines it prints: after the step
    of loop index [k] a progress line is printed when [(k + 1) % 50 == 0].
    When [step] raises, the lines printed so far remain. *)
Fixpoint run_steps_printing {G} `{Generator G} (steps : Z) (rg : list Z)
    (s : TrafficSimulator) (w : rng G) (out : list string)
    : list string * option (TrafficSimulator * rng G) :=
  match rg with
  | [] => (out, Some (s, w))
  | k :: rg' =>
      match step s w with
      | None => (out, None)
      | Some (s, w) =>
          let out :=
            if decide ((k + 1) `mod` 50 = 0) then out ++ [progress_line (k + 1) steps]
            else out in
          run_steps_printing steps rg' s w out
      end
  end.

(** [TrafficSimulator.run_simulation] with the lines it prints. *)
Definition run_simulation_printing {G} `{Generator G} (steps : Z)
    (s : TrafficSimulator) (w : rng G)
    : list string * option (TrafficSimulator * rng G) :=
  let out := ["🚗 Running simulation: " +:+ pretty steps +:+ " steps..."] in
  match run_steps_printing steps (py_range steps) s w out with
  | (out, Some sw) => (out ++ ["✓ Simulation completed!"], Some sw)
  | (out, None) => (out, None)
  end.

(** The slice [l[:k]]: the first [k] elements, or all but the last [-k] when
    [k] is negative. *)
Definition py_slice_to {A} (l : list A) (k : Z) : list A :=
  if decide (0 <= k) then take (Z.to_nat k) l
  else take (Z.to_nat (Z.of_nat (length l) + k)) l.

(** The colours of [_create_colormap]: the empty cell, then the speeds 0 to
    5, then the speeds 6 and above. *)
Definition colors : list string :=
  ["#000033"; "#000080"; "#0040FF"; "#00BFFF"; "#40FF40"; "#FFFF00"; "#FF8000"; "#FF0000"].

(** [TrafficSimulator._create_colormap]: the colour list it hands to
    [ListedColormap]. *)
Definition _create_colormap (s : TrafficSimulator) : list string :=
  py_slice_to colors (max_speed s + 2).

(** The matrix [_plot_space_time_diagram] shows: the positive cells of the
    recorded road views raised by one. *)
Definition vis_matrix (space_time_matrix : list (list float)) : list (list float) :=
  (λ row : list float, (λ x, if (0 <? x)%float then (x + 1)%float else x) <$> row)
    <$> space_time_matrix.

(** The ticks [_plot_space_time_diagram] sets on the colour bar. *)
Definition colorbar_ticks (s : TrafficSimulator) : list Z :=
  py_range (max_speed s + 2).

(** The tick labels [_plot_space_time_diagram] sets on the colour bar. *)
Definition colorbar_ticklabels (s : TrafficSimulator) : list string :=
  "Empty" :: (pretty <$> py_range (max_speed s + 1)).

(** ** A stand-in generator

    A deterministic instance of [Generator], to run the model on concrete
    inputs: the state is a counter, [choice] returns the first cells of the
    road, [randint] a constant array that depends on the state, every
    uniform draw is [0.5], and the mean adds the elements from left to
    right. *)
Module StandIn.

#[global] Instance counter_gen : Generator Z := {
  np_seed sd := Some sd;
  np_choice a n g :=
    if decide (0 <= n <= a) then Some (Z.of_nat <$> seq 0 (Z.to_nat n), g + 1)
    else None;
  np_randint lo hi n g :=
    if decide (lo < hi ∧ 0 <= n) then
      Some (replicate (Z.to_nat n) (lo + g `mod` (hi - lo)), g + 1)
    else None;
  np_random g := (0.5%float, g + 1);
  np_mean l :=
    (foldl (λ acc x, acc + float_of_Z x) 0 l / float_of_Z (Z.of_nat (length l)))%float
}.

(** A simulator with empty history buffers. *)
Definition sim (road_length max_speed : Z) (brake_prob : float)
    (positions speeds : list Z) : TrafficSimulator :=
  Sim road_length max_speed brake_prob 0.5%float
      (Z.of_nat (length positions)) positions speeds [] [] [].

(** The generator at the start of a run. *)
Definition w0 : rng Z := Rng 0 0%nat.

(** Three vehicles on a road of six cells, no random braking. *)
Definition three_cars : TrafficSimulator := sim 6 2 0 [2; 3; 5] [0; 0; 1].

(** Two vehicles bumper to bumper on a road of ten cells. *)
Definition blocked : TrafficSimulator := sim 10 5 0.5 [0; 1] [0; 0].


End StandIn.

(** ** Concrete states *)

(** Closes [valid s] for a concrete state [s]. *)
Ltac valid_by_computation :=
  split; simpl; [lia | lia | lia | reflexivity | reflexivity | |];
  repeat constructor; lia.

Lemma three_cars_valid : valid StandIn.three_cars.
Proof. valid_by_computation. Qed.

Lemma blocked_valid : valid StandIn.blocked.
Proof. valid_by_computation. Qed.

(** ** Integer lemmas *)

Lemma wrap64_id z : - 2 ^ 63 <= z < 2 ^ 63 → wrap64 z = z.
Proof. intros Hz. unfold wrap64. rewrite Z.mod_small; lia. Qed.

Lemma np_mod_range a b : 0 < b → 0 <= np_mod a b < b.
Proof.
  intros Hb. unfold np_mod. case_decide; [lia|]. apply Z.mod_pos_bound. lia.
Qed.

Lemma np_mod_small a b : 0 <= a < b → np_mod a b = a.
Proof.
  intros Ha. unfold np_mod. case_decide; [lia|]. apply Z.mod_small. lia.
Qed.

Lemma np_min_elem x l : np_min x l ∈ x :: l.
Proof.
  induction l as [|y l IH]; simpl; [apply list_elem_of_here|].
  destruct (Z.min_spec y (np_min x l)) as [[_ ->]|[_ ->]].
  - apply list_elem_of_further, list_elem_of_here.
  - apply elem_of_cons in IH as [->|IH]; [apply list_elem_of_here|].
    by do 2 apply list_elem_of_further.
Qed.

(** ** [np_argsort] lists every index once *)

Lemma insert_by_key_perm l i js : insert_by_key l i js ≡ₚ i :: js.
Proof.
  induction js as [|j js IH]; simpl; [done|].
  case_decide; [done|]. rewrite IH. apply Permutation_swap.
Qed.

Lemma np_argsort_perm l : np_argsort l ≡ₚ seq 0 (length l).
Proof.
  unfold np_argsort. induction (seq 0 (length l)) as [|i idxs IH]; simpl; [done|].
  by rewrite insert_by_key_perm, IH.
Qed.

Lemma np_argsort_NoDup l : NoDup (np_argsort l).
Proof. rewrite np_argsort_perm. apply NoDup_seq. Qed.

Lemma np_argsort_elem l i : i ∈ np_argsort l ↔ (i < length l)%nat.
Proof. rewrite np_argsort_perm, elem_of_seq. lia. Qed.

(** ** The stages keep speeds and positions in range *)

Lemma accelerate_range s v :
  max_speed s < 2 ^ 63 → 0 <= v <= max_speed s → 0 <= accelerate s v <= max_speed s.
Proof.
  intros Hm Hv. unfold accelerate. case_decide; [|done].
  rewrite wrap64_id; lia.
Qed.

Lemma decelerate_range gap v hi : 0 <= v <= hi → 0 <= decelerate gap v <= hi.
Proof. intros Hv. unfold decelerate. case_decide; lia. Qed.

Lemma decelerate_le_gap gap v : 0 <= gap → decelerate gap v <= gap.
Proof. intros Hg. unfold decelerate. case_decide; lia. Qed.

Lemma brake_range b v : 0 <= v < 2 ^ 63 → 0 <= brake b v <= v.
Proof.
  intros Hv. unfold brake. destruct b; [|lia].
  rewrite wrap64_id; lia.
Qed.

Lemma target_speed_range s p v :
  max_speed s < 2 ^ 63 → 0 <= v <= max_speed s →
  0 <= target_speed s p v <= max_speed s.
Proof. intros. by apply decelerate_range, accelerate_range. Qed.

Lemma move_range s p v : 0 < road_length s → 0 <= move s p v < road_length s.
Proof. apply np_mod_range. Qed.

(** Without wrap-around of the machine integers, the gap is the code's
    expression over [Z]. *)
Lemma calculate_gap_nonneg s p :
  road_length s < 2 ^ 63 →
  Forall (λ x, 0 <= x < road_length s) (positions s) →
  0 <= p < road_length s →
  0 <= _calculate_gap s p.
Proof.
  intros HL Hps Hp. unfold _calculate_gap.
  rewrite Forall_forall in Hps.
  destruct (filter (λ x, p < x) (positions s)) as [|next rest] eqn:Hnext.
  - destruct (filter (λ x, x < p) (positions s)) as [|b bs] eqn:Hbehind; [lia|].
    assert (0 <= np_min b bs < p) as Hmin.
    { pose proof (np_min_elem b bs) as Hin. rewrite <- Hbehind in Hin.
      apply list_elem_of_filter in Hin as [? Hin]. apply Hps in Hin. lia. }
    rewrite (wrap64_id (road_length s - p)) by lia.
    rewrite (wrap64_id (road_length s - p - 1)) by lia.
    rewrite wrap64_id; lia.
  - assert (next ∈ filter (λ x, p < x) (positions s)) as Hin
      by (rewrite Hnext; apply list_elem_of_here).
    apply list_elem_of_filter in Hin as [? Hin]. apply Hps in Hin.
    rewrite (wrap64_id (next - p)) by lia.
    rewrite wrap64_id; lia.
Qed.

(** ** The loop body of [step] *)

Section StepLemmas.
Context {G : Type} `{Generator G}.

Lemma brake_draw_draws s v w :
  draws (brake_draw s v w).2 = (draws w + if decide (0 < v)%Z then 1 else 0)%nat.
Proof.
  unfold brake_draw, random. case_decide; simpl; [|lia].
  destruct (np_random (gen w)); simpl. lia.
Qed.

(** The body writes the vehicle's own cells of the output arrays, and
    nothing else. *)
Lemma update_vehicle_spec s idx new_speeds new_positions w p v :
  positions s !! idx = Some p →
  speeds s !! idx = Some v →
  new_speeds !! idx = Some v →
  (idx < length new_positions)%nat →
  let t := target_speed s p v in
  let bw := brake_draw s t w in
  update_vehicle s idx (new_speeds, new_positions, w)
  = Some (<[idx := brake bw.1 t]> new_speeds,
          <[idx := move s p (brake bw.1 t)]> new_positions,
          bw.2).
Proof.
  intros Hp Hv Hnv Hlen t bw.
  assert (idx < length new_speeds)%nat as Hlen' by (by eapply lookup_lt_Some).
  apply lookup_lt_is_Some_2 in Hlen as [p' Hp'].
  unfold update_vehicle. rewrite Hp, Hv. simpl.
  set (ns1 := if decide (v < max_speed s) then _ else _).
  assert (ns1 = <[idx := accelerate s v]> new_speeds) as ->.
  { unfold ns1, accelerate. case_decide; [done|]. by rewrite list_insert_id. }
  rewrite list_lookup_insert_eq by done. simpl.
  set (ns2 := if decide (_calculate_gap s p < accelerate s v) then _ else _).
  assert (ns2 = <[idx := t]> new_speeds) as ->.
  { unfold ns2, t, target_speed, decelerate.
    case_decide; [by rewrite list_insert_insert_eq|done]. }
  rewrite list_lookup_insert_eq by done. simpl.
  fold (brake_draw s t w). fold bw. destruct bw as [b w'] eqn:Hbw. simpl.
  set (ns3 := if b then _ else _).
  assert (ns3 = <[idx := brake b t]> new_speeds) as ->.
  { unfold ns3, brake. destruct b; [by rewrite list_insert_insert_eq|done]. }
  rewrite list_lookup_insert_eq by done. simpl. by rewrite Hp'.
Qed.

End StepLemmas.

(** ** The loop of [step] *)

Section LoopLemmas.
Context {G : Type} `{Generator G}.

Lemma processed_start s :
  length (speeds s) = length (positions s) →
  processed s [] (speeds s) (positions s).
Proof.
  intros Hlen. split_and!; [done..|]. intros i p v Hp Hv. split; [|done].
  intros Hi. by apply elem_of_nil in Hi.
Qed.

Lemma processed_ext s seen seen' ns np :
  (∀ i, i ∈ seen ↔ i ∈ seen') → processed s seen ns np → processed s seen' ns np.
Proof.
  intros Hext (Hns & Hnp & Hcells). split_and!; [done..|].
  intros i p v Hp Hv. rewrite <- Hext. by apply Hcells.
Qed.

Lemma update_vehicle_processed s idx seen ns np w :
  length (speeds s) = length (positions s) →
  (idx < length (positions s))%nat → idx ∉ seen →
  processed s seen ns np →
  ∃ ns' np' w',
    update_vehicle s idx (ns, np, w) = Some (ns', np', w') ∧
    processed s (idx :: seen) ns' np' ∧
    draws w' = (draws w + if draws_at s idx then 1 else 0)%nat.
Proof.
  intros Hlen Hidx Hnew (Hns & Hnp & Hcells).
  destruct (lookup_lt_is_Some_2 (positions s) idx Hidx) as [p Hp].
  destruct (lookup_lt_is_Some_2 (speeds s) idx) as [v Hv]; [lia|].
  destruct (Hcells idx p v Hp Hv) as [_ Hold].
  destruct (Hold Hnew) as [Hnsi Hnpi].
  eexists _, _, _. split; [|split].
  - apply (update_vehicle_spec s idx ns np w p v); [done..|lia].
  - split_and!; [by rewrite length_insert..|].
    intros i p' v' Hp' Hv'. destruct (Hcells i p' v' Hp' Hv') as [Hin Hout].
    destruct (decide (i = idx)) as [->|Hne].
    + assert (p' = p) as -> by congruence. assert (v' = v) as -> by congruence.
      split; [|intros []; apply list_elem_of_here].
      intros _. eexists. split; apply list_lookup_insert_eq; lia.
    + rewrite !list_lookup_insert_ne by done. split.
      * intros [?|Hi]%elem_of_cons; [done|]. by apply Hin.
      * intros Hi. apply Hout. intros ?. apply Hi. by apply list_elem_of_further.
  - rewrite brake_draw_draws. unfold draws_at.
    rewrite (list_lookup_total_correct _ _ _ Hp), (list_lookup_total_correct _ _ _ Hv).
    by destruct (decide (0 < target_speed s p v)%Z);
      [rewrite bool_decide_eq_true_2|rewrite bool_decide_eq_false_2].
Qed.

Lemma update_vehicles_processed s idxs : ∀ seen ns np w,
  length (speeds s) = length (positions s) →
  NoDup idxs →
  (∀ i, i ∈ idxs → (i < length (positions s))%nat ∧ i ∉ seen) →
  processed s seen ns np →
  ∃ ns' np' w',
    update_vehicles s idxs (ns, np, w) = Some (ns', np', w') ∧
    processed s (idxs ++ seen) ns' np' ∧
    draws w' = (draws w + length (filter (λ i, draws_at s i = true) idxs))%nat.
Proof.
  induction idxs as [|idx idxs IH]; intros seen ns np w Hlen Hnd Hidxs Hpr.
  { eexists _, _, _. split; [done|]. split; [done|]. simpl. lia. }
  apply NoDup_cons in Hnd as [Hidx Hnd].
  destruct (Hidxs idx) as [Hlt Hnew]; [apply list_elem_of_here|].
  destruct (update_vehicle_processed s idx seen ns np w Hlen Hlt Hnew Hpr)
    as (ns1 & np1 & w1 & Hstep & Hpr1 & Hd1).
  destruct (IH (idx :: seen) ns1 np1 w1 Hlen Hnd) as (ns2 & np2 & w2 & Hrun & Hpr2 & Hd2);
    [|done|].
  { intros i Hi. destruct (Hidxs i) as [? ?]; [by apply list_elem_of_further|].
    split; [done|]. intros [->|?]%elem_of_cons; done. }
  exists ns2, np2, w2. split; [|split].
  - cbn [update_vehicles]. by rewrite Hstep.
  - eapply processed_ext; [|done]. intros i.
    rewrite !elem_of_app, !elem_of_cons. tauto.
  - rewrite Hd2, Hd1. destruct (draws_at s idx) eqn:Hdraw.
    + rewrite filter_cons_True by done. simpl. lia.
    + rewrite filter_cons_False by (by rewrite Hdraw). lia.
Qed.

End LoopLemmas.

(** ** [get_road_state] and [_collect_data] return on well-formed states *)

Lemma fill_road_length ps : ∀ sp i road,
  Forall (λ p, 0 <= p < Z.of_nat (length road)) ps →
  (i + length ps <= length sp)%nat →
  ∃ road', fill_road ps sp i road = Some road' ∧ length road' = length road.
Proof.
  induction ps as [|p ps IH]; intros sp i road Hps Hsp; simpl in *.
  { by exists road. }
  apply Forall_cons in Hps as [Hp Hps].
  destruct (lookup_lt_is_Some_2 sp i) as [v Hv]; [lia|]. rewrite Hv. simpl.
  unfold set_cell. rewrite decide_True by done. simpl.
  destruct (IH sp (S i) (<[Z.to_nat p := float_of_Z v]> road)) as (road' & Hfill & Hlen).
  - by rewrite length_insert.
  - lia.
  - exists road'. split; [done|]. by rewrite Hlen, length_insert.
Qed.

Lemma get_road_state_length s :
  0 <= road_length s →
  length (speeds s) = length (positions s) →
  Forall (λ p, 0 <= p < road_length s) (positions s) →
  ∃ road, get_road_state s = Some road ∧ length road = Z.to_nat (road_length s).
Proof.
  intros HL Hlen Hps. unfold get_road_state. rewrite decide_False by lia.
  destruct (fill_road_length (positions s) (speeds s) 0
              (replicate (Z.to_nat (road_length s)) 0%float)) as (road & Hfill & Hroad).
  - rewrite length_replicate. eapply Forall_impl; [done|]. simpl. lia.
  - lia.
  - exists road. split; [done|]. by rewrite Hroad, length_replicate.
Qed.

(** ** One call of [step] *)

Section StepSpec.
Context {G : Type} `{Generator G}.

Lemma collect_data_unfold s :
  _collect_data (G := G) s
  = (road_state ← get_road_state s; Some (with_record (G := G) s road_state)).
Proof. done. Qed.

Lemma step_unfold s w :
  step s w =
  ('(ns, np, w') ← update_vehicles s (np_argsort (positions s)) (speeds s, positions s, w);
   road ← get_road_state (with_arrays s np ns);
   Some (with_record (G := G) (with_arrays s np ns) road, w')).
Proof.
  unfold step. destruct (update_vehicles _ _ _) as [[[ns np] w']|]; [|done].
  simpl. rewrite collect_data_unfold. fold (with_arrays s np ns).
  by destruct (get_road_state _).
Qed.

(** Every cell of the output arrays of a full pass holds the result of the
    four stages for its vehicle. *)
Lemma processed_all s ns np i p v :
  processed s (np_argsort (positions s)) ns np →
  positions s !! i = Some p → speeds s !! i = Some v →
  ∃ b : bool,
    ns !! i = Some (brake b (target_speed s p v)) ∧
    np !! i = Some (move s p (brake b (target_speed s p v))).
Proof.
  intros (_ & _ & Hcells) Hp Hv. apply (Hcells i p v Hp Hv).
  apply np_argsort_elem. by eapply lookup_lt_Some.
Qed.

Lemma processed_positions_range s ns np :
  0 < road_length s →
  length (speeds s) = length (positions s) →
  processed s (np_argsort (positions s)) ns np →
  Forall (λ p, 0 <= p < road_length s) np.
Proof.
  intros HL Hlen Hpr. apply Forall_lookup. intros i x Hx.
  pose proof Hpr as (Hns & Hnp & _).
  apply lookup_lt_Some in Hx as Hi.
  destruct (lookup_lt_is_Some_2 (positions s) i) as [p Hp]; [lia|].
  destruct (lookup_lt_is_Some_2 (speeds s) i) as [v Hv]; [lia|].
  destruct (processed_all s ns np i p v Hpr Hp Hv) as (b & _ & Hnpi).
  assert (x = move s p (brake b (target_speed s p v))) as -> by congruence.
  by apply move_range.
Qed.

Lemma processed_speeds_range s ns np :
  max_speed s < 2 ^ 63 →
  length (speeds s) = length (positions s) →
  Forall (λ v, 0 <= v <= max_speed s) (speeds s) →
  processed s (np_argsort (positions s)) ns np →
  Forall (λ v, 0 <= v <= max_speed s) ns.
Proof.
  intros Hm Hlen Hsp Hpr. apply Forall_lookup. intros i x Hx.
  pose proof Hpr as (Hns & Hnp & _).
  apply lookup_lt_Some in Hx as Hi.
  destruct (lookup_lt_is_Some_2 (positions s) i) as [p Hp]; [lia|].
  destruct (lookup_lt_is_Some_2 (speeds s) i) as [v Hv]; [lia|].
  destruct (processed_all s ns np i p v Hpr Hp Hv) as (b & Hnsi & _).
  assert (x = brake b (target_speed s p v)) as -> by congruence.
  assert (0 <= v <= max_speed s) as Hvr by (by eapply Forall_lookup_1 in Hsp).
  pose proof (target_speed_range s p v Hm Hvr).
  pose proof (brake_range b (target_speed s p v)). lia.
Qed.

(** [step] returns on every well-formed state: the arrays it installs are
    those of a full pass of the loop, the generator has advanced by the
    braking draws, and the metrics of the new arrays are recorded. *)
Lemma step_spec s w :
  valid s →
  ∃ ns np w' road,
    processed s (np_argsort (positions s)) ns np ∧
    draws w' = (draws w + braking_draws s)%nat ∧
    get_road_state (with_arrays s np ns) = Some road ∧
    step s w = Some (with_record (G := G) (with_arrays s np ns) road, w').
Proof.
  intros [HL Hm H64 Hcount Hlen Hps Hsp].
  destruct (update_vehicles_processed s (np_argsort (positions s)) []
              (speeds s) (positions s) w Hlen (np_argsort_NoDup _))
    as (ns & np & w' & Hrun & Hpr & Hdraws).
  { intros i Hi. split; [by apply np_argsort_elem|]. by intros ?%elem_of_nil. }
  { by apply processed_start. }
  rewrite app_nil_r in Hpr. pose proof Hpr as (Hns & Hnp & _).
  destruct (get_road_state_length (with_arrays s np ns)) as (road & Hroad & _); simpl.
  { lia. } { congruence. } { by apply (processed_positions_range s ns np). }
  exists ns, np, w', road. split_and!; [done| |done|].
  - rewrite Hdraws. unfold braking_draws. f_equal.
    apply Permutation_length. by rewrite np_argsort_perm.
  - rewrite step_unfold, Hrun. simpl. by rewrite Hroad.
Qed.

Lemma step_valid s w s' w' : valid s → step s w = Some (s', w') → valid s'.
Proof.
  intros Hv Hstep. destruct (step_spec s w Hv) as (ns & np & w1 & road & Hpr & _ & _ & Heq).
  rewrite Hstep in Heq. injection Heq as -> ->.
  destruct Hv as [HL Hm H64 Hcount Hlen Hps Hsp]. pose proof Hpr as (Hns & Hnp & _).
  split; simpl; [done..|congruence|congruence| |].
  - by apply (processed_positions_range s ns np).
  - apply (processed_speeds_range s ns np); [lia|done..].
Qed.

End StepSpec.

(** ** The constructor *)

Lemma le_sorted_NoDup_lt (l : list Z) :
  StronglySorted Z.le l → NoDup l → StronglySorted Z.lt l.
Proof.
  induction 1 as [|x l Hl IH Hx]; intros Hnd; [constructor|].
  apply NoDup_cons in Hnd as [Hx' Hnd]. constructor; [by apply IH|].
  rewrite Forall_forall in Hx |- *. intros y Hy.
  assert (x ≠ y) by (by intros ->). specialize (Hx y Hy). lia.
Qed.

Section Constructor.
Context {G : Type} `{GeneratorLaws G}.

Lemma init_inv L d vmax bp seed w s w' :
  __init__ L d vmax bp seed w = Some (s, w') →
  ∃ n chosen sp g1 g2,
    np_choice L n g1 = Some (chosen, g2) ∧
    np_randint 0 (vmax + 1) n g2 = Some (sp, gen w') ∧
    s = Sim L vmax bp d n (np_sort chosen) sp [] [] [].
Proof.
  unfold __init__. intros Hinit.
  destruct (match seed with Some _ => _ | None => _ end) as [w1|]; [|done].
  simpl in Hinit. destruct (py_int _) as [n|]; [|done]. simpl in Hinit.
  destruct (np_choice L n (gen w1)) as [[chosen g2]|] eqn:Hch; [|done].
  simpl in Hinit. destruct (np_randint 0 (vmax + 1) n g2) as [[sp g3]|] eqn:Hsp; [|done].
  simpl in Hinit. injection Hinit as <- <-. by exists n, chosen, sp, (gen w1), g2.
Qed.

(** The constructor returns a well-formed state with ascending positions. *)
Lemma init_valid L d vmax bp seed w s w' :
  0 < L → 0 <= vmax → L + vmax < 2 ^ 63 →
  __init__ L d vmax bp seed w = Some (s, w') →
  valid s ∧ StronglySorted Z.lt (positions s).
Proof.
  intros HL Hm H64 (n & chosen & sp & g1 & g2 & Hch & Hsp & ->)%init_inv.
  pose proof (np_choice_length _ _ _ _ _ Hch) as Hlen.
  pose proof (np_choice_range _ _ _ _ _ Hch) as Hrange.
  pose proof (np_choice_NoDup _ _ _ _ _ Hch) as Hnd.
  pose proof (np_randint_length _ _ _ _ _ _ Hsp) as Hlen'.
  pose proof (np_randint_range _ _ _ _ _ _ Hsp) as Hrange'.
  assert (np_sort chosen ≡ₚ chosen) as Hperm by apply merge_sort_Permutation.
  split; [split; simpl; try done|].
  - by rewrite Hperm.
  - rewrite Hperm. lia.
  - by rewrite Hperm.
  - eapply Forall_impl; [done|]. simpl. lia.
  - simpl. apply le_sorted_NoDup_lt; [|by rewrite Hperm].
    apply (StronglySorted_merge_sort Z.le).
Qed.

End Constructor.

(** The stand-in generator returns arrays of the documented shape. *)
#[global] Instance counter_gen_laws : GeneratorLaws Z.
Proof.
  split; simpl; intros *; case_decide; intros [= <- <-].
  - rewrite length_fmap, length_seq. lia.
  - apply Forall_fmap, Forall_seq. simpl. lia.
  - apply (NoDup_fmap_2 _), NoDup_seq.
  - rewrite length_replicate. lia.
  - apply Forall_replicate.
    pose proof (Z.mod_pos_bound g (hi - lo)). lia.
Qed.

(** ** Sequences of steps *)

Section Runs.
Context {G : Type} `{Generator G}.

(** [step] leaves the parameters alone and adds one entry to each buffer. *)
Lemma step_frame_eq s w s' w' :
  valid s → step s w = Some (s', w') →
  road_length s' = road_length s ∧ max_speed s' = max_speed s ∧
  brake_prob s' = brake_prob s ∧ density s' = density s ∧
  num_vehicles s' = num_vehicles s ∧
  length (positions s') = length (positions s) ∧
  length (speeds s') = length (speeds s) ∧
  space_time_data s' = space_time_data s ++ [default [] (get_road_state s')] ∧
  flow_data s' = flow_data s ++ [flow_of s'] ∧
  avg_speed_data s' = avg_speed_data s ++ [avg_speed_of (G := G) s'].
Proof.
  intros Hv Hstep.
  destruct (step_spec s w Hv) as (ns & np & w1 & road & Hpr & _ & Hroad & Heq).
  rewrite Hstep in Heq. injection Heq as -> ->.
  destruct Hpr as (Hns & Hnp & _). split_and!; try done.
  unfold get_road_state in *. simpl in *. by rewrite Hroad.
Qed.

Lemma steps_to_total n : ∀ s w, valid s → ∃ sw, steps_to n (s, w) sw.
Proof.
  induction n as [|n IH]; intros s w Hv; [eexists; constructor|].
  destruct (step_spec s w Hv) as (ns & np & w1 & road & _ & _ & _ & Hstep).
  destruct (IH _ w1 (step_valid _ _ _ _ Hv Hstep)) as [sw Hsw].
  exists sw. by econstructor.
Qed.

Lemma steps_to_valid n sw sw' :
  steps_to n sw sw' → valid sw.1 →
  valid sw'.1 ∧ road_length sw'.1 = road_length sw.1 ∧
  max_speed sw'.1 = max_speed sw.1.
Proof.
  induction 1 as [sw|n s w [s1 w1] sw'' Hstep _ IH]; simpl; intros Hv; [done|].
  destruct (step_frame_eq _ _ _ _ Hv Hstep) as (HL & Hm & _).
  destruct IH as (? & ? & ?); [by eapply step_valid|].
  simpl in *. split_and!; [done|congruence..].
Qed.

Lemma steps_to_func n sw sw1 sw2 :
  steps_to n sw sw1 → steps_to n sw sw2 → sw1 = sw2.
Proof.
  intros H1. revert sw2. induction H1 as [|n s w sw' sw'' Hstep _ IH]; intros sw2 H2.
  - by inversion H2.
  - inversion H2 as [|? ? ? sw3 ? Hstep' Hrest]; subst. apply IH. congruence.
Qed.

(** The loop of [run_simulation] makes one call of [step] for each element
    of the range. *)
Lemma run_steps_steps_to rg : ∀ s w sw',
  run_steps rg s w = Some sw' ↔ steps_to (length rg) (s, w) sw'.
Proof.
  induction rg as [|k rg IH]; intros s w sw'; simpl.
  - split; [intros [= <-]; constructor|]. by inversion 1.
  - split.
    + destruct (step s w) as [[s1 w1]|] eqn:Hstep; [|done]. simpl.
      intros Hrun%IH. by econstructor.
    + inversion 1 as [|? ? ? [s1 w1] ? Hstep Hrest]; subst.
      rewrite Hstep. simpl. by apply IH.
Qed.

Lemma py_range_length steps : length (py_range steps) = Z.to_nat steps.
Proof. unfold py_range. by rewrite length_fmap, length_seq. Qed.

Lemma steps_to_buffers n sw sw' :
  steps_to n sw sw' → valid sw.1 →
  length (space_time_data sw'.1) = (length (space_time_data sw.1) + n)%nat ∧
  length (flow_data sw'.1) = (length (flow_data sw.1) + n)%nat ∧
  length (avg_speed_data sw'.1) = (length (avg_speed_data sw.1) + n)%nat.
Proof.
  induction 1 as [sw|n s w [s1 w1] sw'' Hstep _ IH]; simpl; intros Hv; [lia|].
  destruct (step_frame_eq _ _ _ _ Hv Hstep) as (_ & _ & _ & _ & _ & _ & _ & Hr & Hf & Ha).
  destruct IH as (Hr' & Hf' & Ha'); [by eapply step_valid|].
  simpl in *. rewrite Hr', Hf', Ha', Hr, Hf, Ha, !length_app. simpl. lia.
Qed.

End Runs.

(** ** Speed bounds (C3) *)

(** C3. Speed bounds invariant: a constructed simulator has every speed in
    [0, max_speed], any number of steps from it can be run, and every speed is
    in [0, max_speed] after each of them. *)
Theorem speed_bounds_invariant {G : Type} `{GeneratorLaws G}
    (L : Z) (d : float) (vmax : Z) (bp : float) (seed : option Z)
    (w : rng G) (s0 : TrafficSimulator) (w0 : rng G) :
  0 < L → 0 <= vmax → L + vmax < 2 ^ 63 →
  __init__ L d vmax bp seed w = Some (s0, w0) →
  ∀ n : nat,
    (∃ sw, steps_to n (s0, w0) sw) ∧
    (∀ s w', steps_to n (s0, w0) (s, w') →
       max_speed s = vmax ∧ Forall (λ v, 0 <= v <= vmax) (speeds s)).
Proof.
  intros HL Hm H64 Hinit n.
  destruct (init_valid _ _ _ _ _ _ _ _ HL Hm H64 Hinit) as [Hv _].
  assert (max_speed s0 = vmax) as Hvmax.
  { apply init_inv in Hinit as (? & ? & ? & ? & ? & _ & _ & ->). done. }
  split; [by apply steps_to_total|]. intros s w' Hsteps.
  destruct (steps_to_valid _ _ _ Hsteps Hv) as (Hv' & _ & Hm'). simpl in *.
  split; [congruence|]. rewrite <- Hvmax, <- Hm'. apply Hv'.
Qed.

Lemma speed_bounds_invariant_witness :
  ∃ s0 w0,
    __init__ 6 0.5 2 0 (Some 1) StandIn.w0 = Some (s0, w0) ∧
    ∀ n : nat,
      (∃ sw, steps_to n (s0, w0) sw) ∧
      (∀ s w', steps_to n (s0, w0) (s, w') →
         max_speed s = 2 ∧ Forall (λ v, 0 <= v <= 2) (speeds s)).
Proof.
  eexists _, _. split; [reflexivity|].
  apply (speed_bounds_invariant 6 0.5 2 0 (Some 1) StandIn.w0); [lia | lia | lia |].
  reflexivity.
Defined.

(** ** The final speed and the gap (C4) *)

(** C4 at a reachable state. Two steps from [three_cars] leave the positions
    [3; 0; 1] with the speeds [1; 2; 0].  The vehicle at cell 0 has the
    vehicle at cell 1 directly ahead, so its gap at the start of the next
    step is 0; that step leaves it, at index 1, with the speed 2. *)
Lemma speed_exceeds_gap_after_two_steps :
  ∃ s w1 s' w',
    valid StandIn.three_cars ∧
    ascending (positions StandIn.three_cars) ∧
    run_simulation 2 StandIn.three_cars StandIn.w0 = Some (s, w1) ∧
    positions s = [3; 0; 1] ∧
    speeds s = [1; 2; 0] ∧
    spec_gap s 0 = 0 ∧
    step s w1 = Some (s', w') ∧
    speeds s' = [2; 2; 1].
Proof.
  eexists _, _, _, _. split; [apply three_cars_valid|].
  split; [repeat constructor; lia|]. split; [vm_compute; reflexivity|].
  do 3 (split; [reflexivity|]). split; [vm_compute; reflexivity|]. reflexivity.
Qed.

(** ** What a step changes (C10) *)

(** C10. Frame of [step]: on a well-formed state [step] returns; the road
    length, maximal speed, braking probability, density and vehicle count are
    unchanged; [positions] and [speeds] keep the length [num_vehicles]; each of
    the three buffers is the old buffer with one element appended. *)
Theorem step_frame {G : Type} `{Generator G} (s : TrafficSimulator) (w : rng G) :
  valid s →
  ∃ s' w',
    step s w = Some (s', w') ∧
    road_length s' = road_length s ∧
    max_speed s' = max_speed s ∧
    brake_prob s' = brake_prob s ∧
    density s' = density s ∧
    num_vehicles s' = num_vehicles s ∧
    Z.of_nat (length (positions s')) = num_vehicles s ∧
    Z.of_nat (length (speeds s')) = num_vehicles s ∧
    ∃ road flow avg,
      space_time_data s' = space_time_data s ++ [road] ∧
      flow_data s' = flow_data s ++ [flow] ∧
      avg_speed_data s' = avg_speed_data s ++ [avg].
Proof.
  intros Hv.
  destruct (step_spec s w Hv) as (ns & np & w' & road & _ & _ & _ & Hstep).
  eexists _, _. split; [done|].
  destruct (step_frame_eq _ _ _ _ Hv Hstep)
    as (HL & Hm & Hb & Hd & Hn & Hps & Hsp & Hr & Hf & Ha).
  destruct Hv as [_ _ _ Hcount Hlen _ _].
  split_and!; [done..| | |by eexists _, _, _].
  - rewrite Hps. done.
  - rewrite Hsp, Hlen. done.
Qed.

Lemma step_frame_witness :
  ∃ s' w',
    step StandIn.three_cars StandIn.w0 = Some (s', w') ∧
    road_length s' = 6 ∧
    max_speed s' = 2 ∧
    brake_prob s' = 0%float ∧
    density s' = 0.5%float ∧
    num_vehicles s' = 3 ∧
    Z.of_nat (length (positions s')) = 3 ∧
    Z.of_nat (length (speeds s')) = 3 ∧
    ∃ road flow avg,
      space_time_data s' = [] ++ [road] ∧
      flow_data s' = [] ++ [flow] ∧
      avg_speed_data s' = [] ++ [avg].
Proof. apply (step_frame StandIn.three_cars StandIn.w0). valid_by_computation. Defined.

(** ** Metrics recording (C8) *)



(** ** Braking draws (C7) *)

Lemma braking_draws_le s : (braking_draws s <= length (positions s))%nat.
Proof.
  unfold braking_draws. etrans; [apply length_filter|]. by rewrite length_seq.
Qed.

(** C7, as the code has it. During a step the generator makes one uniform
    draw for each vehicle whose speed after acceleration and deceleration is
    positive, and no other: a vehicle held at speed 0 by the gap draws
    nothing, so a step makes at most [vehicle_count] draws. *)
Theorem step_braking_draws {G : Type} `{Generator G}
    (s : TrafficSimulator) (w : rng G) :
  valid s →
  ∃ s' w',
    step s w = Some (s', w') ∧
    draws w' = (draws w + braking_draws s)%nat ∧
    (braking_draws s <= length (positions s))%nat.
Proof.
  intros Hv.
  destruct (step_spec s w Hv) as (ns & np & w' & road & _ & Hdraws & _ & Hstep).
  eexists _, _. split_and!; [done|done|apply braking_draws_le].
Qed.

Lemma step_braking_draws_witness :
  ∃ s' w',
    step StandIn.blocked StandIn.w0 = Some (s', w') ∧
    draws w' = (draws StandIn.w0 + braking_draws StandIn.blocked)%nat ∧
    (braking_draws StandIn.blocked <= length (positions StandIn.blocked))%nat.
Proof. apply (step_braking_draws StandIn.blocked StandIn.w0). valid_by_computation. Defined.

(** C7, as stated, fails: of the two vehicles of [blocked] the one behind is
    held at speed 0 and draws nothing, so the step makes one draw, not two. *)
Lemma step_draws_fewer_than_vehicles :
  ∃ s' w',
    valid StandIn.blocked ∧
    num_vehicles StandIn.blocked = 2 ∧
    step StandIn.blocked StandIn.w0 = Some (s', w') ∧
    draws StandIn.w0 = 0%nat ∧
    draws w' = 1%nat.
Proof.
  eexists _, _. split; [apply blocked_valid|]. split; [reflexivity|].
  split; [vm_compute; reflexivity|]. split; reflexivity.
Qed.

(** ** The driver (C6) *)

(** C6, as the code has it. [run_simulation] rejects no step count: on a
    well-formed state it returns for every integer [steps], after exactly
    [steps] calls of [step] in sequence when [steps] is not negative, and
    after none (state, buffers and generator unchanged) when [steps <= 0]. *)
Theorem run_simulation_contract {G : Type} `{Generator G}
    (steps : Z) (s : TrafficSimulator) (w : rng G) :
  valid s →
  ∃ s' w',
    run_simulation steps s w = Some (s', w') ∧
    steps_to (Z.to_nat steps) (s, w) (s', w') ∧
    length (flow_data s') = (length (flow_data s) + Z.to_nat steps)%nat ∧
    (steps <= 0 → s' = s ∧ w' = w).
Proof.
  intros Hv.
  destruct (steps_to_total (Z.to_nat steps) s w Hv) as [[s' w'] Hsteps].
  exists s', w'. split_and!; [|done| |].
  - unfold run_simulation. apply run_steps_steps_to. by rewrite py_range_length.
  - by destruct (steps_to_buffers _ _ _ Hsteps Hv) as (_ & ? & _).
  - intros Hneg. replace (Z.to_nat steps) with 0%nat in Hsteps by lia.
    inversion Hsteps. done.
Qed.

Lemma run_simulation_contract_witness :
  ∃ s' w',
    run_simulation 3 StandIn.three_cars StandIn.w0 = Some (s', w') ∧
    steps_to (Z.to_nat 3) (StandIn.three_cars, StandIn.w0) (s', w') ∧
    length (flow_data s') = (length (flow_data StandIn.three_cars) + Z.to_nat 3)%nat ∧
    (3 <= 0 → s' = StandIn.three_cars ∧ w' = StandIn.w0).
Proof.
  apply (run_simulation_contract 3 StandIn.three_cars StandIn.w0). valid_by_computation.
Defined.

(** C6, as stated, fails: a negative step count is not rejected; the call
    returns and leaves the state as it was. *)
Lemma run_simulation_negative_steps :
  valid StandIn.three_cars ∧
  run_simulation (-1) StandIn.three_cars StandIn.w0
  = Some (StandIn.three_cars, StandIn.w0).
Proof. split; [apply three_cars_valid|reflexivity]. Qed.

(** ** The gap on ascending positions *)

Lemma filter_all {A} (P : A → Prop) `{∀ x, Decision (P x)} (l : list A) :
  Forall P l → filter P l = l.
Proof.
  induction 1 as [|x l Hx _ IH]; [done|]. by rewrite filter_cons_True, IH.
Qed.

(** In an ascending array the elements greater than the one of index [i] are
    the elements after it. *)
Lemma filter_ahead_ascending (l : list Z) : ∀ i p,
  StronglySorted Z.lt l → l !! i = Some p →
  filter (λ x, p < x) l = drop (S i) l.
Proof.
  induction l as [|x l IH]; intros i p Hs Hp; [done|].
  apply StronglySorted_inv in Hs as [Hs Hx]. destruct i as [|i]; simpl in *.
  - injection Hp as ->. rewrite filter_cons_False by lia. by apply filter_all.
  - assert (x < p) by (rewrite Forall_forall in Hx; by eapply Hx, list_elem_of_lookup_2).
    rewrite filter_cons_False by lia. by apply IH.
Qed.

Lemma np_min_ascending a l : StronglySorted Z.lt (a :: l) → np_min a l = a.
Proof.
  intros [_ Ha]%StronglySorted_inv. induction Ha as [|x l Hx _ IH]; simpl; [done|].
  rewrite IH. lia.
Qed.

Lemma StronglySorted_drop (l : list Z) n :
  StronglySorted Z.lt l → StronglySorted Z.lt (drop n l).
Proof.
  intros Hs. rewrite <- (take_drop n l) in Hs. by apply StronglySorted_app_1_r in Hs.
Qed.

(** X2. On a well-formed state with ascending positions [_calculate_gap]
    returns, for every vehicle, the gap as the specification words it. *)
Lemma calculate_gap_ascending s i p :
  valid s → StronglySorted Z.lt (positions s) → positions s !! i = Some p →
  _calculate_gap s p = spec_gap s p.
Proof.
  intros [HL Hm H64 _ _ Hps _] Hs Hp. unfold _calculate_gap, spec_gap.
  assert (0 <= p < road_length s) as Hpr by (by eapply Forall_lookup_1 in Hps).
  rewrite Forall_forall in Hps.
  destruct (filter (λ x, p < x) (positions s)) as [|a ahead] eqn:Hahead.
  - destruct (filter (λ x, x < p) (positions s)) as [|b behind] eqn:Hbehind; [done|].
    assert (0 <= np_min b behind < p) as Hmin.
    { pose proof (np_min_elem b behind) as Hin. rewrite <- Hbehind in Hin.
      apply list_elem_of_filter in Hin as [? Hin]. apply Hps in Hin. lia. }
    rewrite (wrap64_id (road_length s - p)) by lia.
    rewrite (wrap64_id (road_length s - p - 1)) by lia.
    rewrite wrap64_id; lia.
  - assert (a ∈ filter (λ x, p < x) (positions s)) as Hin
      by (rewrite Hahead; apply list_elem_of_here).
    apply list_elem_of_filter in Hin as [? Hin]. apply Hps in Hin.
    rewrite np_min_ascending.
    + rewrite (wrap64_id (a - p)) by lia. rewrite wrap64_id; lia.
    + rewrite <- Hahead, (filter_ahead_ascending _ i p) by done.
      by apply StronglySorted_drop.
Qed.

Lemma calculate_gap_ascending_witness :
  _calculate_gap StandIn.three_cars 3 = spec_gap StandIn.three_cars 3.
Proof.
  apply (calculate_gap_ascending StandIn.three_cars 1 3).
  - valid_by_computation.
  - repeat constructor; lia.
  - reflexivity.
Defined.

(** The gap to the vehicle of the next index. *)
Lemma calculate_gap_next s i p q :
  valid s → StronglySorted Z.lt (positions s) →
  positions s !! i = Some p → positions s !! S i = Some q →
  _calculate_gap s p = q - p - 1 ∧ p < q.
Proof.
  intros [HL Hm H64 _ _ Hps _] Hs Hp Hq. unfold _calculate_gap.
  rewrite (filter_ahead_ascending _ i p) by done.
  rewrite (drop_S _ q (S i)) by done.
  assert (0 <= p < road_length s) by (by eapply Forall_lookup_1 in Hps).
  assert (0 <= q < road_length s) by (by eapply (Forall_lookup_1 _ _ (S i)) in Hps).
  assert (p < q).
  { assert (q ∈ filter (λ x, p < x) (positions s)) as Hin.
    { rewrite (filter_ahead_ascending _ i p) by done.
      rewrite (drop_S _ q (S i)) by done. apply list_elem_of_here. }
    by apply list_elem_of_filter in Hin as [? _]. }
  split; [|done]. rewrite (wrap64_id (q - p)) by lia. rewrite wrap64_id; lia.
Qed.

Lemma adjacent_ascending (l : list Z) :
  (∀ i a b, l !! i = Some a → l !! S i = Some b → a < b) → StronglySorted Z.lt l.
Proof.
  intros Hadj. apply Sorted_StronglySorted; [intros ???; lia|].
  induction l as [|x l IH]; [constructor|]. constructor.
  - apply IH. intros i a b Ha Hb. by apply (Hadj (S i)).
  - destruct l as [|y l]; constructor. by apply (Hadj 0%nat).
Qed.

Lemma move_no_wrap s p v :
  road_length s < 2 ^ 63 → 0 <= p → 0 <= v → p + v < road_length s →
  move s p v = p + v.
Proof.
  intros. unfold move. rewrite wrap64_id by lia. apply np_mod_small. lia.
Qed.

(** ** Order of the positions (C9) *)

(** C9, as the code has it. The constructor returns ascending positions.
    [step] keeps every vehicle at its index and does not sort again: from
    ascending positions it returns, and the new positions are ascending when
    no vehicle passes the end of the road in the step. *)
Theorem positions_ascending {G : Type} `{GeneratorLaws G} :
  (∀ L d vmax bp seed (w : rng G) s0 w0,
     __init__ L d vmax bp seed w = Some (s0, w0) → ascending (positions s0)) ∧
  (∀ s (w : rng G),
     valid s → ascending (positions s) →
     ∃ s' w',
       step s w = Some (s', w') ∧
       ((∀ i p v', positions s !! i = Some p → speeds s' !! i = Some v' →
           p + v' < road_length s) →
        ascending (positions s'))).
Proof.
  split.
  { intros L d vmax bp seed w s0 w0 (n & chosen & sp & g1 & g2 & Hch & _ & ->)%init_inv.
    simpl. apply le_sorted_NoDup_lt; [apply (StronglySorted_merge_sort Z.le)|].
    unfold np_sort. rewrite merge_sort_Permutation. by eapply np_choice_NoDup. }
  intros s w Hv Hs.
  destruct (step_spec s w Hv) as (ns & np & w' & road & Hpr & _ & _ & Hstep).
  exists (with_record (with_arrays s np ns) road), w'. split; [done|]. simpl.
  intros Hnowrap. apply adjacent_ascending. intros i a b Ha Hb.
  pose proof Hv as [HL Hm H64 _ Hlen Hps Hsp]. pose proof Hpr as (Hns & Hnp & _).
  destruct (lookup_lt_is_Some_2 (positions s) i) as [p Hp].
  { rewrite <- Hnp. by eapply lookup_lt_Some. }
  destruct (lookup_lt_is_Some_2 (positions s) (S i)) as [q Hq].
  { rewrite <- Hnp. by eapply lookup_lt_Some. }
  destruct (lookup_lt_is_Some_2 (speeds s) i) as [v Hvi].
  { rewrite Hlen. by eapply lookup_lt_Some. }
  destruct (lookup_lt_is_Some_2 (speeds s) (S i)) as [u Hui].
  { rewrite Hlen. by eapply lookup_lt_Some. }
  destruct (processed_all s ns np i p v Hpr Hp Hvi) as (bi & Hnsi & Hnpi).
  destruct (processed_all s ns np (S i) q u Hpr Hq Hui) as (bj & Hnsj & Hnpj).
  assert (0 <= p < road_length s) by (by eapply Forall_lookup_1 in Hps).
  assert (0 <= q < road_length s) by (by eapply (Forall_lookup_1 _ _ (S i)) in Hps).
  assert (0 <= v <= max_speed s) as Hvr by (by eapply Forall_lookup_1 in Hsp).
  assert (0 <= u <= max_speed s) as Hur by (by eapply (Forall_lookup_1 _ _ (S i)) in Hsp).
  destruct (calculate_gap_next s i p q Hv Hs Hp Hq) as [Hgap Hpq].
  pose proof (target_speed_range s p v ltac:(lia) Hvr) as Htp.
  pose proof (target_speed_range s q u ltac:(lia) Hur) as Htq.
  pose proof (brake_range bi (target_speed s p v) ltac:(lia)) as Hbp.
  pose proof (brake_range bj (target_speed s q u) ltac:(lia)) as Hbq.
  pose proof (decelerate_le_gap (_calculate_gap s p) (accelerate s v) ltac:(lia)) as Hle.
  fold (target_speed s p v) in Hle.
  pose proof (Hnowrap (S i) q _ Hq Hnsj) as Hwq.
  rewrite move_no_wrap in Hnpi by lia. rewrite move_no_wrap in Hnpj by lia.
  assert (a = p + brake bi (target_speed s p v)) as -> by congruence.
  assert (b = q + brake bj (target_speed s q u)) as -> by congruence.
  lia.
Qed.

Lemma positions_ascending_witness :
  (∃ s0 w0,
     __init__ 6 0.5 2 0 (Some 1) StandIn.w0 = Some (s0, w0) ∧ ascending (positions s0)) ∧
  (∃ s' w',
     step StandIn.blocked StandIn.w0 = Some (s', w') ∧ ascending (positions s')).
Proof.
  destruct (positions_ascending (G := Z)) as [Hinit Hstep]. split.
  - assert (__init__ 6 0.5 2 0 (Some 1) StandIn.w0
            = Some (StandIn.sim 6 2 0 [0; 1; 2] [2; 2; 2], Rng 3 0%nat)) as Hi
      by (vm_compute; reflexivity).
    eexists _, _. split; [exact Hi|]. exact (Hinit _ _ _ _ _ _ _ _ Hi).
  - destruct (Hstep StandIn.blocked StandIn.w0) as (s' & w' & Hs' & Hasc).
    + valid_by_computation.
    + repeat constructor; lia.
    + exists s', w'. split; [exact Hs'|]. apply Hasc.
      vm_compute in Hs'. injection Hs' as <- <-.
      intros [|[|i]] p v' Hp Hv'; simpl in *; simplify_eq; lia.
Defined.

(** C9, as stated, fails: in one step from [three_cars] the vehicle at cell 5
    passes the end of the road and lands on cell 1, at its old index. *)
Lemma positions_unsorted_after_wrap :
  ∃ s' w',
    valid StandIn.three_cars ∧
    ascending (positions StandIn.three_cars) ∧
    step StandIn.three_cars StandIn.w0 = Some (s', w') ∧
    positions s' = [2; 4; 1] ∧
    ¬ StronglySorted Z.le (positions s').
Proof.
  eexists _, _. split; [apply three_cars_valid|].
  split; [repeat constructor; lia|]. split; [vm_compute; reflexivity|].
  split; [reflexivity|]. simpl. intros Hs.
  apply StronglySorted_inv in Hs as [Hs _].
  apply StronglySorted_inv in Hs as [_ H41].
  apply Forall_cons in H41 as [? _]. lia.
Qed.

(** ** Collisions (C1) and the gap on unsorted positions (C2) *)

(** C2 at a reachable state. Two steps from [three_cars] leave the positions
    [3; 0; 1]: distinct and in range, but no longer ascending.  For the
    vehicle at cell 0 the nearest vehicle ahead is at cell 1, so the gap of
    the specification is 0; [_calculate_gap] takes the first greater element
    of the array, cell 3, and answers 2. *)
Lemma gap_wrong_after_two_steps :
  ∃ s w',
    valid StandIn.three_cars ∧
    ascending (positions StandIn.three_cars) ∧
    run_simulation 2 StandIn.three_cars StandIn.w0 = Some (s, w') ∧
    positions s = [3; 0; 1] ∧
    road_length s = 6 ∧
    _calculate_gap s 0 = 2 ∧
    spec_gap s 0 = 0.
Proof.
  eexists _, _. split; [apply three_cars_valid|].
  split; [repeat constructor; lia|]. split; [vm_compute; reflexivity|].
  repeat split.
Qed.

(** C1 at a reachable state. Three steps from [three_cars], whose positions
    are distinct and ascending, and whose braking probability is 0, put two
    vehicles on cell 2. *)
Lemma collision_after_three_steps :
  ∃ s w',
    valid StandIn.three_cars ∧
    ascending (positions StandIn.three_cars) ∧
    run_simulation 3 StandIn.three_cars StandIn.w0 = Some (s, w') ∧
    positions s = [5; 2; 2] ∧
    ¬ NoDup (positions s).
Proof.
  eexists _, _. split; [apply three_cars_valid|].
  split; [repeat constructor; lia|]. split; [vm_compute; reflexivity|].
  split; [reflexivity|]. simpl. intros Hnd.
  apply NoDup_cons in Hnd as [_ Hnd]. apply NoDup_cons in Hnd as [Hin _].
  apply Hin, list_elem_of_here.
Qed.

(** ** Seeding (C5) *)

Section Seeding.
Context {G : Type} `{Generator G}.

(** The seed [0] is false in [if random_seed:], so the generator is left as
    it was, as if no seed had been given. *)
Lemma init_seed_zero L d vmax bp (w : rng G) :
  __init__ L d vmax bp (Some 0) w = __init__ L d vmax bp None w.
Proof. done. Qed.

(** X3. With a seed other than [0] the constructed state and everything run
    from it do not depend on the generator the process had before. *)
Lemma seeded_run_deterministic L d vmax bp sd steps (g1 g2 : G) (n : nat) :
  sd ≠ 0 →
  (sw ← __init__ L d vmax bp (Some sd) (Rng g1 n); run_simulation steps sw.1 sw.2)
  = (sw ← __init__ L d vmax bp (Some sd) (Rng g2 n); run_simulation steps sw.1 sw.2).
Proof.
  intros Hsd. unfold __init__. rewrite !decide_False by done.
  by destruct (np_seed sd).
Qed.

End Seeding.

Lemma seeded_run_deterministic_witness :
  (sw ← __init__ 6 0.5 2 0 (Some 1) (Rng 1 0%nat); run_simulation 2 sw.1 sw.2)
  = (sw ← __init__ 6 0.5 2 0 (Some 1) (Rng 2 0%nat); run_simulation 2 sw.1 sw.2).
Proof. apply (seeded_run_deterministic 6 0.5 2 0 1 2 1 2 0%nat). lia. Defined.

(** C5 at the seed [0]. Two simulators constructed with the same parameters
    and the seed [0], in processes whose generators differ, start with
    different speeds. *)
Lemma seed_zero_not_reproducible :
  ∃ s1 w1 s2 w2,
    __init__ 6 0.5 2 0 (Some 0) (Rng 1 0%nat) = Some (s1, w1) ∧
    __init__ 6 0.5 2 0 (Some 0) (Rng 2 0%nat) = Some (s2, w2) ∧
    speeds s1 = [2; 2; 2] ∧
    speeds s2 = [0; 0; 0].
Proof.
  eexists _, _, _, _. split; [vm_compute; reflexivity|].
  split; [vm_compute; reflexivity|]. split; reflexivity.
Qed.

(** ** One step from ascending positions does not collide *)

Lemma filter_none {A} (P : A → Prop) `{∀ x, Decision (P x)} (l : list A) :
  Forall (λ x, ¬ P x) l → filter P l = [].
Proof.
  induction 1 as [|x l Hx _ IH]; [done|]. by rewrite filter_cons_False, IH.
Qed.

(** In an ascending array the elements smaller than the one of index [i] are
    the elements before it. *)
Lemma filter_behind_ascending (l : list Z) : ∀ i p,
  StronglySorted Z.lt l → l !! i = Some p →
  filter (λ x, x < p) l = take i l.
Proof.
  induction l as [|x l IH]; intros i p Hs Hp; [done|].
  apply StronglySorted_inv in Hs as [Hs Hx]. destruct i as [|i]; simpl in *.
  - injection Hp as ->. rewrite filter_cons_False by lia.
    apply filter_none. eapply Forall_impl; [done|]. simpl. lia.
  - assert (x < p) by (rewrite Forall_forall in Hx; by eapply Hx, list_elem_of_lookup_2).
    rewrite filter_cons_True by lia. f_equal. by apply IH.
Qed.

Lemma ascending_lookup_le (l : list Z) : ∀ i j a b,
  StronglySorted Z.lt l → (i <= j)%nat → l !! i = Some a → l !! j = Some b → a <= b.
Proof.
  induction l as [|x l IH]; intros i j a b Hs Hij Ha Hb; [done|].
  apply StronglySorted_inv in Hs as [Hs Hx].
  destruct i as [|i], j as [|j]; simpl in *; try lia.
  - simplify_eq. lia.
  - injection Ha as ->. rewrite Forall_forall in Hx.
    apply list_elem_of_lookup_2, Hx in Hb. lia.
  - apply (IH i j); (done || lia).
Qed.

(** The gap of the last vehicle of an ascending array reaches around the end
    of the road to the first one. *)
Lemma calculate_gap_last s i p p0 :
  valid s → StronglySorted Z.lt (positions s) →
  positions s !! i = Some p → S i = length (positions s) →
  positions s !! 0%nat = Some p0 →
  _calculate_gap s p = road_length s - p - 1 + p0.
Proof.
  intros [HL Hm H64 _ _ Hps _] Hs Hp Hlast Hp0. unfold _calculate_gap.
  rewrite (filter_ahead_ascending _ i p), drop_ge by (done || lia).
  rewrite (filter_behind_ascending _ i p) by done.
  assert (0 <= p < road_length s) by (by eapply Forall_lookup_1 in Hps).
  destruct i as [|i].
  - rewrite take_0. simplify_eq. lia.
  - destruct (positions s) as [|x l] eqn:Hl; [done|]. simpl in Hp0. injection Hp0 as ->.
    rewrite firstn_cons. rewrite np_min_ascending.
    + assert (0 <= p0 <= p).
      { apply Forall_cons in Hps as [? _].
        pose proof (ascending_lookup_le _ 0%nat (S i) p0 p Hs ltac:(lia) eq_refl Hp). lia. }
      rewrite (wrap64_id (road_length s - p)) by lia.
      rewrite (wrap64_id (road_length s - p - 1)) by lia.
      rewrite wrap64_id; lia.
    + change (p0 :: take i l) with (take (S i) (p0 :: l)).
      rewrite <- (take_drop (S i) (p0 :: l)) in Hs.
      by apply StronglySorted_app_1_l in Hs.
Qed.

Section NoCollision.
Context {G : Type} `{Generator G}.

(** Where a vehicle lands: before the vehicle of the next index, or, for the
    last one when it passes the end of the road, before the first vehicle. *)
Lemma new_position_slot s ns np j p p0 a :
  valid s → StronglySorted Z.lt (positions s) →
  processed s (np_argsort (positions s)) ns np →
  positions s !! j = Some p → positions s !! 0%nat = Some p0 → np !! j = Some a →
  (p <= a ∧ ∀ q, positions s !! S j = Some q → a < q) ∨
  (S j = length (positions s) ∧ a < p0).
Proof.
  intros Hv Hs Hpr Hp Hp0 Ha.
  pose proof Hv as [HL Hm H64 _ Hlen Hps Hsp].
  destruct (lookup_lt_is_Some_2 (speeds s) j) as [v Hvj].
  { rewrite Hlen. by eapply lookup_lt_Some. }
  destruct (processed_all s ns np j p v Hpr Hp Hvj) as (b & _ & Hnp).
  assert (a = move s p (brake b (target_speed s p v))) as -> by congruence.
  assert (0 <= p < road_length s) by (by eapply Forall_lookup_1 in Hps).
  assert (0 <= v <= max_speed s) as Hvr by (by eapply Forall_lookup_1 in Hsp).
  pose proof (target_speed_range s p v ltac:(lia) Hvr) as Ht.
  pose proof (brake_range b (target_speed s p v) ltac:(lia)) as Hb.
  pose proof (calculate_gap_nonneg s p ltac:(lia) Hps ltac:(done)) as Hgap.
  pose proof (decelerate_le_gap (_calculate_gap s p) (accelerate s v) Hgap) as Hle.
  fold (target_speed s p v) in Hle.
  destruct (positions s !! S j) as [q|] eqn:Hq.
  - destruct (calculate_gap_next s j p q Hv Hs Hp Hq) as [Hgq Hpq].
    assert (0 <= q < road_length s) by (by eapply (Forall_lookup_1 _ _ (S j)) in Hps).
    left. rewrite move_no_wrap by lia. split; [lia|]. intros q' [= <-]. lia.
  - apply lookup_ge_None in Hq. apply lookup_lt_Some in Hp as Hj.
    assert (S j = length (positions s)) as Hlast by lia.
    rewrite (calculate_gap_last s j p p0 Hv Hs Hp Hlast Hp0) in Hle.
    destruct (decide (p + brake b (target_speed s p v) < road_length s)) as [Hin|Hout].
    + left. rewrite move_no_wrap by lia. split; [lia|done].
    + right. split; [done|]. unfold move, np_mod.
      assert (0 <= p0 < road_length s) by (by eapply (Forall_lookup_1 _ _ 0%nat) in Hps).
      rewrite wrap64_id, decide_False by lia.
      replace (p + brake b (target_speed s p v))
        with (p + brake b (target_speed s p v) - road_length s + 1 * road_length s) by lia.
      rewrite Z.mod_add, Z.mod_small by lia. lia.
Qed.

(** X1. From a well-formed state with ascending positions one call of [step]
    returns and leaves the positions pairwise distinct. *)
Theorem step_no_collision_from_ascending (s : TrafficSimulator) (w : rng G) :
  valid s → ascending (positions s) →
  ∃ s' w', step s w = Some (s', w') ∧ NoDup (positions s').
Proof.
  intros Hv Hs.
  destruct (step_spec s w Hv) as (ns & np & w' & road & Hpr & _ & _ & Hstep).
  exists (with_record (with_arrays s np ns) road), w'. split; [done|]. simpl.
  pose proof Hpr as (_ & Hnp & _).
  assert (∀ i j x, (i < j)%nat → np !! i = Some x → np !! j = Some x → False) as Hlt.
  { intros i j x Hij Hi Hj.
    destruct (lookup_lt_is_Some_2 (positions s) i) as [p Hp].
    { rewrite <- Hnp. by eapply lookup_lt_Some. }
    destruct (lookup_lt_is_Some_2 (positions s) j) as [q Hq].
    { rewrite <- Hnp. by eapply lookup_lt_Some. }
    destruct (lookup_lt_is_Some_2 (positions s) (S i)) as [p' Hp'].
    { apply lookup_lt_Some in Hq. lia. }
    destruct (lookup_lt_is_Some_2 (positions s) 0) as [p0 Hp0].
    { apply lookup_lt_Some in Hq. lia. }
    pose proof (ascending_lookup_le _ 0%nat i p0 p Hs ltac:(lia) Hp0 Hp).
    pose proof (ascending_lookup_le _ (S i) j p' q Hs ltac:(lia) Hp' Hq).
    destruct (new_position_slot s ns np i p p0 x Hv Hs Hpr Hp Hp0 Hi) as [[? Hnext]|[Hlast _]].
    - specialize (Hnext p' Hp').
      destruct (new_position_slot s ns np j q p0 x Hv Hs Hpr Hq Hp0 Hj) as [[? _]|[_ ?]]; lia.
    - apply lookup_lt_Some in Hq. lia. }
  apply NoDup_alt. intros i j x Hi Hj.
  destruct (lt_eq_lt_dec i j) as [[Hij| ->]|Hij]; [|done|].
  - destruct (Hlt i j x Hij Hi Hj).
  - destruct (Hlt j i x Hij Hj Hi).
Qed.

End NoCollision.

Lemma step_no_collision_from_ascending_witness :
  ∃ s' w',
    step StandIn.three_cars StandIn.w0 = Some (s', w') ∧ NoDup (positions s').
Proof.
  apply (step_no_collision_from_ascending StandIn.three_cars StandIn.w0).
  - valid_by_computation.
  - repeat constructor; lia.
Defined.

(** ** The road view *)

Lemma set_cell_in_range road p v :
  0 <= p < Z.of_nat (length road) →
  set_cell road p v = Some (<[Z.to_nat p := v]> road).
Proof. intros Hp. unfold set_cell. by rewrite decide_True. Qed.



(** What the loop of [get_road_state] leaves in the cells, for distinct
    positions on the road. *)
Lemma fill_road_cells ps : ∀ sp i road road',
  Forall (λ p, 0 <= p < Z.of_nat (length road)) ps → NoDup ps →
  fill_road ps sp i road = Some road' →
  length road' = length road ∧
  (∀ k p v, ps !! k = Some p → sp !! (i + k)%nat = Some v →
     road' !! Z.to_nat p = Some (float_of_Z v)) ∧
  (∀ c, (∀ p, p ∈ ps → Z.to_nat p ≠ c) → road' !! c = road !! c).
Proof.
  induction ps as [|p ps IH]; intros sp i road road' Hps Hnd Hfill; simpl in *.
  { injection Hfill as <-. split_and!; [done| |done]. by intros k p v ?. }
  apply Forall_cons in Hps as [Hp Hps]. apply NoDup_cons in Hnd as [Hnew Hnd].
  destruct (sp !! i) as [v|] eqn:Hv; [|done]. simpl in Hfill.
  rewrite set_cell_in_range in Hfill by done. simpl in Hfill.
  destruct (IH sp (S i) _ road' ltac:(by rewrite length_insert) Hnd Hfill)
    as (Hlen & Hcells & Hrest).
  rewrite length_insert in Hlen. split_and!; [done| |].
  - intros [|k] q u Hq Hu; simpl in *.
    + injection Hq as <-. rewrite Nat.add_0_r, Hv in Hu. injection Hu as <-.
      rewrite Hrest.
      * apply list_lookup_insert_eq. lia.
      * intros q Hq Heq. rewrite Forall_forall in Hps. specialize (Hps q Hq).
        assert (q = p) as -> by lia. done.
    + apply (Hcells k); [done|].
      rewrite <- Hu. f_equal. lia.
  - intros c Hc. rewrite Hrest.
    + apply list_lookup_insert_ne. apply Hc, list_elem_of_here.
    + intros q Hq. by apply Hc, list_elem_of_further.
Qed.


(** X4. The road view of a well-formed state with distinct positions: it has
    [road_length] cells, the cell of each vehicle holds the vehicle's speed,
    and every cell without a vehicle holds 0. *)
Theorem get_road_state_cells (s : TrafficSimulator) :
  valid s → NoDup (positions s) →
  ∃ road,
    get_road_state s = Some road ∧
    Z.of_nat (length road) = road_length s ∧
    (∀ i p v, positions s !! i = Some p → speeds s !! i = Some v →
       road !! Z.to_nat p = Some (float_of_Z v)) ∧
    (∀ c, 0 <= c < road_length s → c ∉ positions s →
       road !! Z.to_nat c = Some 0%float).
Proof.
  intros [HL Hm H64 Hcount Hlen Hps Hsp] Hnd.
  destruct (get_road_state_length s ltac:(lia) Hlen Hps) as (road & Hroad & Hlength).
  exists road. split; [done|]. split; [lia|].
  unfold get_road_state in Hroad. rewrite decide_False in Hroad by lia.
  apply fill_road_cells in Hroad as (_ & Hcells & Hrest); [|rewrite length_replicate|done].
  - split; [intros i p v; apply (Hcells i)|]. intros c Hc Hfree.
    rewrite Hrest; [apply lookup_replicate_2; lia|].
    intros p Hp Heq. rewrite Forall_forall in Hps. specialize (Hps p Hp).
    assert (p = c) as -> by lia. done.
  - eapply Forall_impl; [done|]. simpl. lia.
Qed.

Lemma get_road_state_cells_witness :
  ∃ road,
    get_road_state StandIn.three_cars = Some road ∧
    Z.of_nat (length road) = road_length StandIn.three_cars ∧
    (∀ i p v, positions StandIn.three_cars !! i = Some p →
       speeds StandIn.three_cars !! i = Some v →
       road !! Z.to_nat p = Some (float_of_Z v)) ∧
    (∀ c, 0 <= c < road_length StandIn.three_cars → c ∉ positions StandIn.three_cars →
       road !! Z.to_nat c = Some 0%float).
Proof.
  apply (get_road_state_cells StandIn.three_cars).
  - valid_by_computation.
  - apply (bool_decide_unpack _). vm_compute. exact I.
Defined.



(** ** The update rule, vehicle by vehicle *)

Lemma target_speed_min s p v :
  max_speed s < 2 ^ 63 → 0 <= v <= max_speed s → 0 <= _calculate_gap s p →
  target_speed s p v = Z.min (Z.min (v + 1) (max_speed s)) (_calculate_gap s p).
Proof.
  intros Hm Hv Hgap. unfold target_speed, decelerate, accelerate.
  destruct (decide (v < max_speed s)).
  - rewrite wrap64_id by lia. case_decide; lia.
  - case_decide; lia.
Qed.

(** X6. The update rule of one step: on a well-formed state [step] returns,
    and for every vehicle, with [t] the smallest of its speed plus one, the
    maximal speed and its gap, the new speed is [t] or, after braking, [t - 1]
    (not below 0), and it is at the cell of its old position plus its new
    speed, modulo the road length, at the same index. *)
Theorem step_update_rule {G : Type} `{Generator G} (s : TrafficSimulator) (w : rng G) :
  valid s →
  ∃ s' w',
    step s w = Some (s', w') ∧
    ∀ i p v, positions s !! i = Some p → speeds s !! i = Some v →
      ∃ v',
        speeds s' !! i = Some v' ∧
        positions s' !! i = Some ((p + v') `mod` road_length s) ∧
        let t := Z.min (Z.min (v + 1) (max_speed s)) (_calculate_gap s p) in
        v' = t ∨ v' = Z.max 0 (t - 1).
Proof.
  intros Hv.
  destruct (step_spec s w Hv) as (ns & np & w' & road & Hpr & _ & _ & Hstep).
  exists (with_record (with_arrays s np ns) road), w'. split; [done|]. simpl.
  destruct Hv as [HL Hm H64 Hcount Hlen Hps Hsp]. intros i p v Hp Hvi.
  destruct (processed_all s ns np i p v Hpr Hp Hvi) as (b & Hnsi & Hnpi).
  assert (0 <= p < road_length s) as Hpr' by (by eapply Forall_lookup_1 in Hps).
  assert (0 <= v <= max_speed s) as Hvr by (by eapply Forall_lookup_1 in Hsp).
  pose proof (calculate_gap_nonneg s p ltac:(lia) Hps Hpr') as Hgap.
  pose proof (target_speed_range s p v ltac:(lia) Hvr) as Ht.
  pose proof (brake_range b (target_speed s p v) ltac:(lia)) as Hb.
  exists (brake b (target_speed s p v)). split; [done|]. split.
  - rewrite Hnpi. f_equal. unfold move, np_mod.
    rewrite wrap64_id, decide_False by lia. done.
  - simpl. rewrite <- target_speed_min by (done || lia).
    unfold brake. destruct b; [right|by left]. rewrite wrap64_id by lia. done.
Qed.

Lemma step_update_rule_witness :
  ∃ s' w',
    step StandIn.three_cars StandIn.w0 = Some (s', w') ∧
    ∀ i p v, positions StandIn.three_cars !! i = Some p →
      speeds StandIn.three_cars !! i = Some v →
      ∃ v',
        speeds s' !! i = Some v' ∧
        positions s' !! i = Some ((p + v') `mod` road_length StandIn.three_cars) ∧
        let t := Z.min (Z.min (v + 1) (max_speed StandIn.three_cars))
                   (_calculate_gap StandIn.three_cars p) in
        v' = t ∨ v' = Z.max 0 (t - 1).
Proof. apply (step_update_rule StandIn.three_cars StandIn.w0). valid_by_computation. Defined.

(** ** Steps without braking *)

Section NoBraking.
Context {G : Type} `{Generator G}.

Lemma brake_draw_never s :
  (∀ g : G, ((np_random g).1 <? brake_prob s)%float = false) →
  ∀ v w, (brake_draw s v w).1 = false.
Proof.
  intros Hnever v w. unfold brake_draw, random. case_decide; [|done].
  specialize (Hnever (gen w)). by destruct (np_random (gen w)).
Qed.

Lemma update_vehicles_settled s idxs : ∀ seen ns np w,
  (∀ v w, (brake_draw s v w).1 = false) →
  length (speeds s) = length (positions s) →
  NoDup idxs →
  (∀ i, i ∈ idxs → (i < length (positions s))%nat ∧ i ∉ seen) →
  settled s seen ns np →
  ∃ ns' np' w',
    update_vehicles s idxs (ns, np, w) = Some (ns', np', w') ∧
    settled s (idxs ++ seen) ns' np'.
Proof.
  induction idxs as [|idx idxs IH]; intros seen ns np w Hnever Hlen Hnd Hidxs Hst.
  { by eexists _, _, _. }
  apply NoDup_cons in Hnd as [Hidx Hnd].
  destruct (Hidxs idx) as [Hlt Hnew]; [apply list_elem_of_here|].
  destruct Hst as (Hns & Hnp & Hcells).
  destruct (lookup_lt_is_Some_2 (positions s) idx Hlt) as [p Hp].
  destruct (lookup_lt_is_Some_2 (speeds s) idx) as [v Hv]; [lia|].
  destruct (Hcells idx p v Hp Hv) as [_ Hold]. destruct (Hold Hnew) as [Hnsi Hnpi].
  pose proof (update_vehicle_spec s idx ns np w p v Hp Hv Hnsi ltac:(lia)) as Hstep.
  cbv zeta in Hstep. rewrite Hnever in Hstep. cbn [brake] in Hstep.
  destruct (IH (idx :: seen) (<[idx := target_speed s p v]> ns)
              (<[idx := move s p (target_speed s p v)]> np)
              (brake_draw s (target_speed s p v) w).2 Hnever Hlen Hnd)
    as (ns2 & np2 & w2 & Hrun & Hst2).
  - intros i Hi. destruct (Hidxs i) as [? ?]; [by apply list_elem_of_further|].
    split; [done|]. intros [->|?]%elem_of_cons; done.
  - split_and!; [by rewrite length_insert..|].
    intros i p' v' Hp' Hv'. destruct (Hcells i p' v' Hp' Hv') as [Hin Hout].
    destruct (decide (i = idx)) as [->|Hne].
    + assert (p' = p) as -> by congruence. assert (v' = v) as -> by congruence.
      split; [|intros []; apply list_elem_of_here].
      intros _. split; apply list_lookup_insert_eq; lia.
    + rewrite !list_lookup_insert_ne by done. split.
      * intros [?|Hi]%elem_of_cons; [done|]. by apply Hin.
      * intros Hi. apply Hout. intros ?. apply Hi. by apply list_elem_of_further.
  - exists ns2, np2, w2. split; [cbn [update_vehicles]; by rewrite Hstep|].
    destruct Hst2 as (? & ? & Hcells2). split_and!; [done..|].
    intros i p' v' Hp' Hv'. destruct (Hcells2 i p' v' Hp' Hv') as [Hin Hout].
    rewrite elem_of_app, elem_of_cons in Hin, Hout.
    rewrite elem_of_app, elem_of_cons. split; [intros; apply Hin|intros; apply Hout]; tauto.
Qed.

(** X7. A step in which no draw falls below the braking probability (as
    with [brake_prob = 0]) is the deterministic rule: every vehicle gets the
    speed min(speed + 1, max_speed, gap) and advances by it, modulo the road
    length. *)
Theorem step_without_braking (s : TrafficSimulator) (w : rng G) :
  valid s →
  (∀ g : G, ((np_random g).1 <? brake_prob s)%float = false) →
  ∃ s' w',
    step s w = Some (s', w') ∧
    ∀ i p v, positions s !! i = Some p → speeds s !! i = Some v →
      let t := Z.min (Z.min (v + 1) (max_speed s)) (_calculate_gap s p) in
      speeds s' !! i = Some t ∧
      positions s' !! i = Some ((p + t) `mod` road_length s).
Proof.
  intros Hv Hnever. pose proof Hv as [HL Hm H64 Hcount Hlen Hps Hsp].
  destruct (update_vehicles_settled s (np_argsort (positions s)) []
              (speeds s) (positions s) w (brake_draw_never s Hnever) Hlen
              (np_argsort_NoDup _))
    as (ns & np & w' & Hrun & Hst).
  { intros i Hi. split; [by apply np_argsort_elem|]. by intros ?%elem_of_nil. }
  { split_and!; [done..|]. intros i p v Hp Hvi. split; [|done].
    intros Hi. by apply elem_of_nil in Hi. }
  rewrite app_nil_r in Hst. destruct Hst as (Hns & Hnp & Hcells).
  assert (∀ i p v, positions s !! i = Some p → speeds s !! i = Some v →
            ns !! i = Some (target_speed s p v) ∧
            np !! i = Some (move s p (target_speed s p v))) as Hall.
  { intros i p v Hp Hvi. apply (Hcells i p v Hp Hvi), np_argsort_elem.
    by eapply lookup_lt_Some. }
  destruct (get_road_state_length (with_arrays s np ns)) as (road & Hroad & _); simpl.
  { lia. } { congruence. }
  { apply Forall_lookup. intros i x Hx. apply lookup_lt_Some in Hx as Hi.
    destruct (lookup_lt_is_Some_2 (positions s) i) as [p Hp]; [lia|].
    destruct (lookup_lt_is_Some_2 (speeds s) i) as [v Hvi]; [lia|].
    destruct (Hall i p v Hp Hvi) as [_ Hnpi].
    assert (x = move s p (target_speed s p v)) as -> by congruence.
    by apply move_range. }
  exists (with_record (with_arrays s np ns) road), w'. split.
  { rewrite step_unfold, Hrun. simpl. by rewrite Hroad. }
  simpl. intros i p v Hp Hvi. destruct (Hall i p v Hp Hvi) as [Hnsi Hnpi].
  assert (0 <= p < road_length s) as Hpr by (by eapply Forall_lookup_1 in Hps).
  assert (0 <= v <= max_speed s) as Hvr by (by eapply Forall_lookup_1 in Hsp).
  pose proof (calculate_gap_nonneg s p ltac:(lia) Hps Hpr) as Hgap.
  pose proof (target_speed_range s p v ltac:(lia) Hvr) as Ht.
  rewrite <- target_speed_min by (done || lia). split; [done|].
  rewrite Hnpi. f_equal. unfold move, np_mod.
  rewrite wrap64_id, decide_False by lia. done.
Qed.

(** X8. Running [a] steps and then [b] steps is running [a + b] steps: a
    simulation can be driven in several calls of [run_simulation]. *)
Theorem run_simulation_add (a b : Z) (s : TrafficSimulator) (w : rng G) :
  0 <= a → 0 <= b →
  run_simulation (a + b) s w
  = (sw ← run_simulation a s w; run_simulation b sw.1 sw.2).
Proof.
  intros Ha Hb. unfold run_simulation.
  assert (∀ rg1 rg2 s w, length rg1 = length rg2 →
            run_steps rg1 s w = run_steps rg2 s w) as Hlen.
  { induction rg1 as [|? rg1 IH]; intros [|? rg2] s1 w1 Hl; simplify_eq/=; [done|].
    destruct (step s1 w1) as [[s2 w2]|]; [|done]. simpl. by apply IH. }
  assert (∀ rg1 rg2 s w,
            run_steps (rg1 ++ rg2) s w
            = (sw ← run_steps rg1 s w; run_steps rg2 sw.1 sw.2)) as Happ.
  { induction rg1 as [|? rg1 IH]; intros rg2 s1 w1; simpl; [done|].
    destruct (step s1 w1) as [[s2 w2]|]; [|done]. simpl. apply IH. }
  rewrite <- Happ. apply Hlen.
  rewrite length_app, !py_range_length. lia.
Qed.

End NoBraking.

Lemma step_without_braking_witness :
  ∃ s' w',
    step StandIn.three_cars StandIn.w0 = Some (s', w') ∧
    ∀ i p v, positions StandIn.three_cars !! i = Some p →
      speeds StandIn.three_cars !! i = Some v →
      let t := Z.min (Z.min (v + 1) (max_speed StandIn.three_cars))
                 (_calculate_gap StandIn.three_cars p) in
      speeds s' !! i = Some t ∧
      positions s' !! i = Some ((p + t) `mod` road_length StandIn.three_cars).
Proof.
  apply (step_without_braking StandIn.three_cars StandIn.w0).
  - valid_by_computation.
  - intros g. reflexivity.
Defined.

Lemma run_simulation_add_witness :
  run_simulation (1 + 2) StandIn.three_cars StandIn.w0
  = (sw ← run_simulation 1 StandIn.three_cars StandIn.w0; run_simulation 2 sw.1 sw.2).
Proof. apply (run_simulation_add 1 2 StandIn.three_cars StandIn.w0); lia. Defined.

(** ** The empty road *)

Section EmptyRoad.
Context {G : Type} `{Generator G}.

Lemma step_empty_road L vmax bp d n rs fs avs (w : rng G) :
  0 <= L →
  step (Sim L vmax bp d n [] [] rs fs avs) w
  = Some (Sim L vmax bp d n [] []
              (rs ++ [replicate (Z.to_nat L) 0%float])
              (fs ++ [(0 / float_of_Z L)%float])
              (avs ++ [PyInt 0]), w).
Proof.
  intros HL. unfold step, _collect_data, get_road_state. simpl.
  by rewrite decide_False by lia.
Qed.

Lemma run_steps_empty_road rg : ∀ L vmax bp d n rs fs avs (w : rng G),
  0 <= L →
  run_steps rg (Sim L vmax bp d n [] [] rs fs avs) w
  = Some (Sim L vmax bp d n [] []
              (rs ++ replicate (length rg) (replicate (Z.to_nat L) 0%float))
              (fs ++ replicate (length rg) (0 / float_of_Z L)%float)
              (avs ++ replicate (length rg) (PyInt 0)), w).
Proof.
  induction rg as [|k rg IH]; intros L vmax bp d n rs fs avs w HL; simpl.
  { by rewrite !app_nil_r. }
  rewrite step_empty_road by done. simpl. rewrite IH by done.
  by rewrite <- !app_assoc.
Qed.

(** X9. The empty road: from a well-formed state without vehicles
    [run_simulation] returns for every step count, makes no draw from the
    generator, and adds to the buffers, once per step, an all-zero road view,
    the flow [0 / road_length] and the integer average speed [0]. *)
Theorem run_simulation_empty_road (steps : Z) (s : TrafficSimulator) (w : rng G) :
  valid s → positions s = [] →
  ∃ s',
    run_simulation steps s w = Some (s', w) ∧
    positions s' = [] ∧ speeds s' = [] ∧
    space_time_data s' =
      space_time_data s ++
        replicate (Z.to_nat steps) (replicate (Z.to_nat (road_length s)) 0%float) ∧
    flow_data s' =
      flow_data s ++ replicate (Z.to_nat steps) (0 / float_of_Z (road_length s))%float ∧
    avg_speed_data s' = avg_speed_data s ++ replicate (Z.to_nat steps) (PyInt 0).
Proof.
  intros [HL _ _ _ Hlen _ _] Hps. rewrite Hps in Hlen.
  apply nil_length_inv in Hlen. destruct s; simpl in *. subst.
  eexists. split.
  - unfold run_simulation. rewrite run_steps_empty_road, py_range_length by lia. done.
  - done.
Qed.

End EmptyRoad.

Lemma run_simulation_empty_road_witness :
  ∃ s',
    run_simulation 4 (StandIn.sim 5 2 0.5 [] []) StandIn.w0 = Some (s', StandIn.w0) ∧
    positions s' = [] ∧ speeds s' = [] ∧
    space_time_data s' = [] ++ replicate (Z.to_nat 4) (replicate (Z.to_nat 5) 0%float) ∧
    flow_data s' = [] ++ replicate (Z.to_nat 4) (0 / float_of_Z 5)%float ∧
    avg_speed_data s' = [] ++ replicate (Z.to_nat 4) (PyInt 0).
Proof.
  apply (run_simulation_empty_road 4 (StandIn.sim 5 2 0.5 [] []) StandIn.w0).
  - valid_by_computation.
  - reflexivity.
Defined.

(** ** The gaps around the road *)

Lemma ring_gaps_lookup T l : ∀ i,
  ring_gaps T l !! i = (λ p, default T (l !! S i) - p - 1) <$> l !! i.
Proof.
  induction l as [|x l IH]; intros [|i]; simpl; [done|done|by destruct l|apply IH].
Qed.

Lemma ring_gaps_sum T l : ∀ x,
  foldr Z.add 0 (ring_gaps T (x :: l)) = T - x - Z.of_nat (length (x :: l)).
Proof.
  induction l as [|y l IH]; intros x; [simpl; lia|].
  change (ring_gaps T (x :: y :: l)) with ((y - x - 1) :: ring_gaps T (y :: l)).
  cbn [foldr]. rewrite IH. simpl length. lia.
Qed.

Lemma sum_pointwise_le (l1 l2 : list Z) :
  Forall2 Z.le l1 l2 → foldr Z.add 0 l1 <= foldr Z.add 0 l2.
Proof. induction 1; simpl; lia. Qed.

(** On ascending positions the gaps computed by [_calculate_gap] are the
    gaps around the road. *)
Lemma calculate_gap_ring s p0 :
  valid s → StronglySorted Z.lt (positions s) → positions s !! 0%nat = Some p0 →
  _calculate_gap s <$> positions s = ring_gaps (road_length s + p0) (positions s).
Proof.
  intros Hv Hs Hp0. apply list_eq. intros i.
  rewrite list_lookup_fmap, ring_gaps_lookup.
  destruct (positions s !! i) as [p|] eqn:Hp; [|done]. simpl. f_equal.
  destruct (positions s !! S i) as [q|] eqn:Hq; simpl.
  - by destruct (calculate_gap_next s i p q Hv Hs Hp Hq) as [-> _].
  - apply lookup_ge_None in Hq. apply lookup_lt_Some in Hp as Hi.
    rewrite (calculate_gap_last s i p p0) by (done || lia). lia.
Qed.

(** X10. On a well-formed state with ascending positions and at least one
    vehicle the gaps of all vehicles add up to the number of empty cells,
    [road_length - vehicle_count]; and with or without vehicles, the speeds
    after a step add up to at most that number. *)
Theorem gaps_and_movement_bound {G : Type} `{Generator G}
    (s : TrafficSimulator) (w : rng G) :
  valid s → ascending (positions s) →
  (positions s ≠ [] →
   foldr Z.add 0 (_calculate_gap s <$> positions s)
   = road_length s - Z.of_nat (length (positions s))) ∧
  ∃ s' w',
    step s w = Some (s', w') ∧
    foldr Z.add 0 (speeds s') <= road_length s - Z.of_nat (length (positions s)).
Proof.
  intros Hv Hs.
  assert (positions s ≠ [] →
          foldr Z.add 0 (_calculate_gap s <$> positions s)
          = road_length s - Z.of_nat (length (positions s))) as Hsum.
  { destruct (positions s) as [|p0 l] eqn:Hl; [done|]. intros _.
    rewrite <- Hl, (calculate_gap_ring s p0), Hl, ring_gaps_sum by (by rewrite ?Hl).
    lia. }
  split; [done|].
  destruct (step_spec s w Hv) as (ns & np & w' & road & Hpr & _ & _ & Hstep).
  exists (with_record (with_arrays s np ns) road), w'. split; [done|]. simpl.
  pose proof Hv as [HL Hm H64 Hcount Hlen Hps Hsp]. pose proof Hpr as (Hns & _ & _).
  destruct (decide (positions s = [])) as [Hnil|Hne].
  { rewrite Hnil in *. simpl in *. rewrite Hlen in Hns.
    apply nil_length_inv in Hns as ->. simpl. lia. }
  rewrite <- (Hsum Hne). apply sum_pointwise_le, Forall2_same_length_lookup.
  split; [rewrite length_fmap; congruence|]. intros i v' g Hv' Hg.
  rewrite list_lookup_fmap in Hg.
  destruct (positions s !! i) as [p|] eqn:Hp; [|done]. injection Hg as <-.
  destruct (lookup_lt_is_Some_2 (speeds s) i) as [v Hvi].
  { rewrite Hlen. by eapply lookup_lt_Some. }
  destruct (processed_all s ns np i p v Hpr Hp Hvi) as (b & Hnsi & _).
  assert (v' = brake b (target_speed s p v)) as -> by congruence.
  assert (0 <= p < road_length s) as Hpr' by (by eapply Forall_lookup_1 in Hps).
  assert (0 <= v <= max_speed s) as Hvr by (by eapply Forall_lookup_1 in Hsp).
  pose proof (calculate_gap_nonneg s p ltac:(lia) Hps Hpr') as Hgap.
  pose proof (target_speed_range s p v ltac:(lia) Hvr) as Ht.
  pose proof (decelerate_le_gap (_calculate_gap s p) (accelerate s v) Hgap) as Hle.
  fold (target_speed s p v) in Hle.
  pose proof (brake_range b (target_speed s p v)). lia.
Qed.

Lemma gaps_and_movement_bound_witness :
  (positions StandIn.three_cars ≠ [] →
   foldr Z.add 0 (_calculate_gap StandIn.three_cars <$> positions StandIn.three_cars)
   = road_length StandIn.three_cars - Z.of_nat (length (positions StandIn.three_cars))) ∧
  ∃ s' w',
    step StandIn.three_cars StandIn.w0 = Some (s', w') ∧
    foldr Z.add 0 (speeds s')
    <= road_length StandIn.three_cars - Z.of_nat (length (positions StandIn.three_cars)).
Proof.
  apply (gaps_and_movement_bound StandIn.three_cars StandIn.w0).
  - valid_by_computation.
  - repeat constructor; lia.
Defined.

(** ** The colour bar and the displayed matrix *)

Lemma py_range_lookup n (k : nat) :
  Z.of_nat k < n → py_range n !! k = Some (Z.of_nat k).
Proof.
  intros Hk. unfold py_range. rewrite list_lookup_fmap, lookup_seq_lt by lia. done.
Qed.

(** X11. The colour bar for a maximal speed of at least 0: there are
    [max_speed + 2] ticks and as many labels, ["Empty"] for tick 0 and the
    speed [k] for tick [k + 1]; the colour map has min(max_speed + 2, 8)
    colours, so one colour per tick only up to a maximal speed of 6. *)
Theorem colorbar_ticks_labels_colors (s : TrafficSimulator) :
  0 <= max_speed s →
  Z.of_nat (length (colorbar_ticks s)) = max_speed s + 2 ∧
  length (colorbar_ticklabels s) = length (colorbar_ticks s) ∧
  colorbar_ticklabels s !! 0%nat = Some "Empty" ∧
  (∀ k : nat, Z.of_nat k <= max_speed s →
     colorbar_ticks s !! S k = Some (Z.of_nat k + 1) ∧
     colorbar_ticklabels s !! S k = Some (pretty (Z.of_nat k))) ∧
  Z.of_nat (length (_create_colormap s)) = Z.min (max_speed s + 2) 8.
Proof.
  intros Hm. unfold colorbar_ticks, colorbar_ticklabels, _create_colormap, py_slice_to.
  split_and!.
  - rewrite py_range_length. lia.
  - simpl. rewrite length_fmap, !py_range_length. lia.
  - done.
  - intros k Hk. split.
    + rewrite py_range_lookup by lia. f_equal. lia.
    + simpl. rewrite list_lookup_fmap, py_range_lookup by lia. done.
  - rewrite decide_True, length_take by lia.
    change (length colors) with 8%nat. lia.
Qed.

Lemma colorbar_ticks_labels_colors_witness :
  Z.of_nat (length (colorbar_ticks StandIn.three_cars)) = 2 + 2 ∧
  length (colorbar_ticklabels StandIn.three_cars) = length (colorbar_ticks StandIn.three_cars) ∧
  colorbar_ticklabels StandIn.three_cars !! 0%nat = Some "Empty" ∧
  (∀ k : nat, Z.of_nat k <= 2 →
     colorbar_ticks StandIn.three_cars !! S k = Some (Z.of_nat k + 1) ∧
     colorbar_ticklabels StandIn.three_cars !! S k = Some (pretty (Z.of_nat k))) ∧
  Z.of_nat (length (_create_colormap StandIn.three_cars)) = Z.min (2 + 2) 8.
Proof. apply (colorbar_ticks_labels_colors StandIn.three_cars). simpl. lia. Defined.

(** X12. A stopped vehicle is displayed as an empty cell: in the displayed
    matrix of the road view of a well-formed state with distinct positions,
    the cell of a vehicle of speed 0 holds 0, like every cell without a
    vehicle. *)
Theorem stopped_vehicle_displayed_empty (s : TrafficSimulator) :
  valid s → NoDup (positions s) →
  ∃ road row,
    get_road_state s = Some road ∧
    vis_matrix [road] = [row] ∧
    ∀ c, 0 <= c < road_length s →
      (c ∉ positions s ∨ ∃ i, positions s !! i = Some c ∧ speeds s !! i = Some 0) →
      row !! Z.to_nat c = Some 0%float.
Proof.
  intros [HL Hm H64 Hcount Hlen Hps Hsp] Hnd.
  destruct (get_road_state_length s ltac:(lia) Hlen Hps) as (road & Hroad & Hlength).
  eexists road, _. split; [done|]. split; [done|].
  unfold get_road_state in Hroad. rewrite decide_False in Hroad by lia.
  apply fill_road_cells in Hroad as (_ & Hcells & Hrest); [|rewrite length_replicate|done].
  - intros c Hc Hcell. rewrite list_lookup_fmap.
    assert (road !! Z.to_nat c = Some 0%float) as ->; [|done].
    destruct Hcell as [Hfree|(i & Hp & Hv)].
    + rewrite Hrest; [apply lookup_replicate_2; lia|].
      intros p Hp Heq. rewrite Forall_forall in Hps. specialize (Hps p Hp).
      assert (p = c) as -> by lia. done.
    + apply (Hcells i c 0 Hp Hv).
  - eapply Forall_impl; [done|]. simpl. lia.
Qed.

Lemma stopped_vehicle_displayed_empty_witness :
  ∃ road row,
    get_road_state StandIn.three_cars = Some road ∧
    vis_matrix [road] = [row] ∧
    ∀ c, 0 <= c < road_length StandIn.three_cars →
      (c ∉ positions StandIn.three_cars ∨
       ∃ i, positions StandIn.three_cars !! i = Some c ∧
            speeds StandIn.three_cars !! i = Some 0) →
      row !! Z.to_nat c = Some 0%float.
Proof.
  apply (stopped_vehicle_displayed_empty StandIn.three_cars).
  - valid_by_computation.
  - apply (bool_decide_unpack _). vm_compute. exact I.
Defined.

(** ** The lines [run_simulation] prints *)

Section Printing.
Context {G : Type} `{Generator G}.

Lemma run_steps_printing_lines steps n : ∀ (a : nat) s (w : rng G) out,
  valid s →
  ∃ sw,
    run_steps (Z.of_nat <$> seq a n) s w = Some sw ∧
    run_steps_printing steps (Z.of_nat <$> seq a n) s w out
    = (out ++ ((λ j, progress_line (50 * j) steps) <$>
                 seqZ (Z.of_nat a `div` 50 + 1)
                      (Z.of_nat (a + n) `div` 50 - Z.of_nat a `div` 50)),
       Some sw).
Proof.
  induction n as [|n IH]; intros a s w out Hv.
  { exists (s, w). split; [done|]. simpl. rewrite Nat.add_0_r, Z.sub_diag. simpl.
    by rewrite app_nil_r. }
  destruct (step_spec s w Hv) as (ns & np & w1 & road & _ & _ & _ & Hstep).
  pose proof (step_valid _ _ _ _ Hv Hstep) as Hv1.
  cbn [seq fmap list_fmap run_steps run_steps_printing]. rewrite Hstep. simpl.
  set (out1 := if decide _ then _ else _).
  destruct (IH (S a) _ w1 out1 Hv1) as (sw & Hrun & Hprint).
  exists sw. split; [done|]. rewrite Hprint. f_equal.
  replace (Z.of_nat (S a + n)) with (Z.of_nat (a + S n)) by lia.
  unfold out1. case_decide as Hmod.
  - assert (Z.of_nat (S a) `div` 50 = Z.of_nat a `div` 50 + 1) as Hdiv
      by (Z.to_euclidean_division_equations; lia).
    assert (Z.of_nat a + 1 = 50 * (Z.of_nat a `div` 50 + 1)) as Hmul
      by (Z.to_euclidean_division_equations; lia).
    rewrite Hdiv, <- app_assoc. f_equal.
    rewrite (seqZ_cons (Z.of_nat a `div` 50 + 1))
      by (Z.to_euclidean_division_equations; lia).
    rewrite fmap_cons, <- Hmul. simpl. do 3 f_equal; lia.
  - assert (Z.of_nat (S a) `div` 50 = Z.of_nat a `div` 50) as Hdiv
      by (Z.to_euclidean_division_equations; lia).
    by rewrite Hdiv.
Qed.

(** X13. What [run_simulation] prints on a well-formed state: the opening
    line, one progress line for each of the steps 50, 100, ..., up to
    [steps], and the closing line; the state it leaves is the one of
    [run_simulation]. *)
Theorem run_simulation_printed_lines (steps : Z) (s : TrafficSimulator) (w : rng G) :
  valid s →
  run_simulation_printing steps s w
  = (("🚗 Running simulation: " +:+ pretty steps +:+ " steps...")
       :: ((λ j, progress_line (50 * j) steps) <$> seqZ 1 (steps `div` 50))
       ++ ["✓ Simulation completed!"],
     run_simulation steps s w).
Proof.
  intros Hv. unfold run_simulation_printing, run_simulation, py_range.
  destruct (run_steps_printing_lines steps (Z.to_nat steps) 0 s w
              ["🚗 Running simulation: " +:+ pretty steps +:+ " steps..."] Hv)
    as (sw & -> & ->).
  assert (seqZ (Z.of_nat 0 `div` 50 + 1)
            (Z.of_nat (0 + Z.to_nat steps) `div` 50 - Z.of_nat 0 `div` 50)
          = seqZ 1 (steps `div` 50)) as ->; [|done].
  change (Z.of_nat 0 `div` 50) with 0. rewrite Z.sub_0_r, Nat.add_0_l.
  destruct (decide (0 <= steps)).
  - by rewrite Z2Nat.id.
  - rewrite !seqZ_nil; [done| |]; Z.to_euclidean_division_equations; lia.
Qed.

End Printing.

Lemma run_simulation_printed_lines_witness :
  run_simulation_printing 3 StandIn.three_cars StandIn.w0
  = (("🚗 Running simulation: " +:+ pretty 3 +:+ " steps...")
       :: ((λ j, progress_line (50 * j) 3) <$> seqZ 1 (3 `div` 50))
       ++ ["✓ Simulation completed!"],
     run_simulation 3 StandIn.three_cars StandIn.w0).
Proof.
  apply (run_simulation_printed_lines 3 StandIn.three_cars StandIn.w0).
  valid_by_computation.
Defined.

(** ** The shape of the recorded data *)

Section Shape.
Context {G : Type} `{Generator G}.

Lemma step_road_view_length s w s' w' :
  valid s → step s w = Some (s', w') →
  ∃ road,
    space_time_data s' = space_time_data s ++ [road] ∧
    length road = Z.to_nat (road_length s) ∧
    length (flow_data s') = S (length (flow_data s)) ∧
    length (avg_speed_data s') = S (length (avg_speed_data s)).
Proof.
  intros Hv Hstep.
  destruct (step_spec s w Hv) as (ns & np & w1 & road & Hpr & _ & Hroad & Heq).
  rewrite Hstep in Heq. injection Heq as -> ->.
  destruct Hv as [HL Hm H64 Hcount Hlen Hps Hsp]. pose proof Hpr as (Hns & Hnp & _).
  destruct (get_road_state_length (with_arrays s np ns)) as (road' & Hroad' & Hlength); simpl.
  { lia. } { congruence. } { by apply (processed_positions_range s ns np). }
  exists road. simpl. rewrite !length_app. simpl. split_and!; [done| |lia..].
  simpl in Hlength. congruence.
Qed.

(** X14. The recorded data form a matrix: when the simulator starts with
    empty buffers, as the constructor leaves them, then after any number [n]
    of steps the occupancy buffer has [n] rows of [road_length] cells each,
    and the flow and average-speed buffers have [n] entries. *)
Theorem recorded_matrix_shape (n : nat) (s : TrafficSimulator) (w : rng G)
    (s' : TrafficSimulator) (w' : rng G) :
  valid s →
  space_time_data s = [] → flow_data s = [] → avg_speed_data s = [] →
  steps_to n (s, w) (s', w') →
  length (space_time_data s') = n ∧
  Forall (λ row, Z.of_nat (length row) = road_length s) (space_time_data s') ∧
  length (flow_data s') = n ∧
  length (avg_speed_data s') = n.
Proof.
  intros Hv Hr Hf Ha Hsteps.
  assert (∀ n sw sw', steps_to n sw sw' → valid sw.1 →
            Forall (λ row, Z.of_nat (length row) = road_length sw.1) (space_time_data sw.1) →
            length (space_time_data sw'.1) = (length (space_time_data sw.1) + n)%nat ∧
            Forall (λ row, Z.of_nat (length row) = road_length sw.1) (space_time_data sw'.1) ∧
            length (flow_data sw'.1) = (length (flow_data sw.1) + n)%nat ∧
            length (avg_speed_data sw'.1) = (length (avg_speed_data sw.1) + n)%nat) as Hgen.
  { clear. induction 1 as [sw|n s w [s1 w1] sw'' Hstep _ IH]; simpl; intros Hv Hrows.
    { split_and!; (done || lia). }
    destruct (step_road_view_length _ _ _ _ Hv Hstep) as (road & Hr & Hlen & Hf & Ha).
    destruct (step_frame_eq _ _ _ _ Hv Hstep) as (HL & _).
    pose proof Hv as [? _ _ _ _ _ _].
    destruct IH as (Hr' & Hrows' & Hf' & Ha'); simpl in *.
    { by eapply step_valid. }
    { rewrite HL, Hr. apply Forall_app. split; [done|]. constructor; [lia|done]. }
    rewrite Hr', Hf', Ha', Hr, Hf, Ha, length_app. simpl.
    rewrite <- HL. split_and!; (done || lia). }
  destruct (Hgen n _ _ Hsteps Hv) as (? & ? & ? & ?); simpl in *.
  { rewrite Hr. constructor. }
  rewrite Hr, Hf, Ha in *. simpl in *. done.
Qed.

End Shape.

Lemma recorded_matrix_shape_witness :
  ∃ s' w',
    steps_to 1 (StandIn.three_cars, StandIn.w0) (s', w') ∧
    length (space_time_data s') = 1%nat ∧
    Forall (λ row, Z.of_nat (length row) = road_length StandIn.three_cars)
      (space_time_data s') ∧
    length (flow_data s') = 1%nat ∧
    length (avg_speed_data s') = 1%nat.
Proof.
  destruct (step StandIn.three_cars StandIn.w0) as [[s1 w1]|] eqn:Hstep;
    [|vm_compute in Hstep; discriminate].
  exists s1, w1.
  assert (steps_to 1 (StandIn.three_cars, StandIn.w0) (s1, w1)) as Hsteps
    by (econstructor; [exact Hstep|constructor]).
  split; [exact Hsteps|].
  apply (recorded_matrix_shape 1 StandIn.three_cars StandIn.w0 s1 w1);
    [valid_by_computation|reflexivity|reflexivity|reflexivity|exact Hsteps].
Defined.
